(** * gseapy/stats.py: enrichment p-values and multiple-testing correction

    A shallow embedding of [calc_pvalues], [_ecdf], [fdrcorrection] and
    [multiple_testing_correction], and the properties the specification
    states about them.

    - numpy arrays are lists; the numpy primitives the source calls
      (boolean-mask indexing and assignment, [np.take], index-array
      assignment, [np.minimum.accumulate], ...) are written out with the
      exceptions numpy raises on a shape or index mismatch;
    - float64 arithmetic is an interface ([Float64]) with two instances:
      the kernel's binary64 numbers, on which the definitions run exactly as
      numpy runs them, and exact extended rationals, which satisfy the order
      and monotonicity laws ([Float64Laws]) two of the theorems rely on;
    - [np.argsort] is a parameter: any function returning a sorting
      permutation, whatever it does with ties;
    - [scipy.stats.hypergeom.sf] is a parameter of [calc_pvalues]; where a
      property is about its value, it is the exact upper tail
      [hypergeom_sf]. *)

From Stdlib Require Import ZArith QArith Lia PrimFloat Uint63.
From stdpp Require Import base list gmap sets strings sorting.

Local Open Scope Z_scope.
Local Open Scope list_scope.
Local Open Scope nat_scope.

(** ** Exceptions *)

Inductive exn : Type :=
| ValueError (arg : string)   (* [raise ValueError(method)] *)
| ShapeError                  (* numpy: cannot assign n values to m places *)
| IndexError                  (* numpy: index or mask out of bounds *)
| TypeError.                  (* [len(None)] *)

Inductive result (A : Type) : Type :=
| Ok (a : A)
| Raise (e : exn).
Arguments Ok {A} a.
Arguments Raise {A} e.

#[export] Instance result_bind : MBind result := λ A B k r,
  match r with
  | Ok a => k a
  | Raise e => Raise e
  end.

(** ** The float64 operations the source uses *)

Class Float64 : Type := {
  f64 : Type;
  fzero : f64;                    (* 0.0, also [False] stored in a float array *)
  fone : f64;                     (* 1.0, also [True] stored in a float array *)
  fisnan : f64 → bool;            (* np.isnan *)
  fmul : f64 → f64 → f64;         (* * *)
  fdiv : f64 → f64 → f64;         (* / (true division) *)
  fltb : f64 → f64 → bool;        (* < *)
  fleb : f64 → f64 → bool;        (* <= *)
  of_nat : nat → f64              (* an integer length or rank as a float64 *)
}.

(** The kernel's binary64 numbers: numpy's float64. *)
#[export] Instance binary64 : Float64 := {|
  f64 := PrimFloat.float;
  fzero := PrimFloat.zero;
  fone := PrimFloat.one;
  fisnan := PrimFloat.is_nan;
  fmul := PrimFloat.mul;
  fdiv := PrimFloat.div;
  fltb := PrimFloat.ltb;
  fleb := PrimFloat.leb;
  (* exact up to 2^53, rounded to nearest above; lengths are below 2^63 *)
  of_nat := λ n, PrimFloat.of_uint63 (Uint63.of_Z (Z.of_nat n))
|}.

(** Extended rationals: NaN, the two infinities and exact finite values.
    Arithmetic follows IEEE 754 without rounding and without a negative
    zero. *)
Inductive xQ : Type :=
| XNaN
| XInf (neg : bool)
| XFin (q : Q).

Definition Qsign_neg (q : Q) : bool := Qle_bool q 0 && negb (Qeq_bool q 0).

Definition xQ_isnan (x : xQ) : bool :=
  match x with XNaN => true | _ => false end.

Definition xQ_mul (x y : xQ) : xQ :=
  match x, y with
  | XNaN, _ | _, XNaN => XNaN
  | XInf s, XInf t => XInf (xorb s t)
  | XInf s, XFin q | XFin q, XInf s =>
      if Qeq_bool q 0 then XNaN else XInf (xorb s (Qsign_neg q))
  | XFin p, XFin q => XFin (p * q)
  end.

Definition xQ_div (x y : xQ) : xQ :=
  match x, y with
  | XNaN, _ | _, XNaN => XNaN
  | XInf _, XInf _ => XNaN
  | XInf s, XFin q => XInf (xorb s (Qsign_neg q))
  | XFin _, XInf _ => XFin 0
  | XFin p, XFin q =>
      if Qeq_bool q 0
      then (if Qeq_bool p 0 then XNaN else XInf (Qsign_neg p))
      else XFin (p / q)
  end.

Definition xQ_leb (x y : xQ) : bool :=
  match x, y with
  | XNaN, _ | _, XNaN => false
  | XInf true, _ => true
  | _, XInf false => true
  | XInf false, _ => false
  | _, XInf true => false
  | XFin p, XFin q => Qle_bool p q
  end.

Definition xQ_ltb (x y : xQ) : bool := xQ_leb x y && negb (xQ_leb y x).

#[export] Instance exactQ : Float64 := {|
  f64 := xQ;
  fzero := XFin 0;
  fone := XFin 1;
  fisnan := xQ_isnan;
  fmul := xQ_mul;
  fdiv := xQ_div;
  fltb := xQ_ltb;
  fleb := xQ_leb;
  of_nat := λ n, XFin (inject_Z (Z.of_nat n))
|}.

(** ** numpy primitives on one-dimensional arrays *)

Section Numpy.
Context {A : Type}.

(** [a[mask]]: the entries where the mask is true. *)
Fixpoint compress (mask : list bool) (a : list A) : list A :=
  match mask, a with
  | b :: mask', x :: a' =>
      if b then x :: compress mask' a' else compress mask' a'
  | _, _ => []
  end.

Definition bool_index (a : list A) (mask : list bool) : result (list A) :=
  if Nat.eqb (length mask) (length a) then Ok (compress mask a)
  else Raise IndexError.

(** The places of [a] where the mask is true take [vals] in order. *)
Fixpoint scatter (mask : list bool) (a vals : list A) : list A :=
  match mask, a with
  | b :: mask', x :: a' =>
      if b then
        match vals with
        | v :: vals' => v :: scatter mask' a' vals'
        | [] => x :: scatter mask' a' []
        end
      else x :: scatter mask' a' vals
  | _, _ => a
  end.

Definition count_true (mask : list bool) : nat :=
  length (filter (λ b, b = true) mask).

(** [a[mask] = vals]: as many values as true places, or one value for
    all of them. *)
Definition bool_assign (a : list A) (mask : list bool) (vals : list A)
  : result (list A) :=
  if negb (Nat.eqb (length mask) (length a)) then Raise IndexError
  else if Nat.eqb (length vals) (count_true mask) then Ok (scatter mask a vals)
  else match vals with
       | [v] => Ok (scatter mask a (replicate (count_true mask) v))
       | _ => Raise ShapeError
       end.

(** [np.take(a, inds)]. *)
Fixpoint np_take (a : list A) (inds : list nat) : result (list A) :=
  match inds with
  | [] => Ok []
  | i :: inds' =>
      match a !! i with
      | Some x => r ← np_take a inds'; Ok (x :: r)
      | None => Raise IndexError
      end
  end.

(** The writes of [a[inds] = vals], in order. *)
Fixpoint put (a : list A) (inds : list nat) (vals : list A) : result (list A) :=
  match inds, vals with
  | i :: inds', v :: vals' =>
      if Nat.ltb i (length a) then put (<[i:=v]> a) inds' vals'
      else Raise IndexError
  | _, _ => Ok a
  end.

(** [a[inds] = vals]. *)
Definition index_assign (a : list A) (inds : list nat) (vals : list A)
  : result (list A) :=
  if Nat.eqb (length vals) (length inds) then put a inds vals
  else match vals with
       | [v] => put a inds (replicate (length inds) v)
       | _ => Raise ShapeError
       end.

(** [np.empty_like(x)]: an array of the shape of [x] whose content is
    whatever the memory holds, here [junk]. *)
Definition empty_like {B : Type} (junk : A) (x : list B) : list A :=
  replicate (length x) junk.

(** [ufunc.accumulate]. *)
Fixpoint accumulate_from (f : A → A → A) (acc : A) (l : list A) : list A :=
  match l with
  | [] => []
  | x :: l' => let acc' := f acc x in acc' :: accumulate_from f acc' l'
  end.

Definition accumulate (f : A → A → A) (l : list A) : list A :=
  match l with
  | [] => []
  | x :: l' => x :: accumulate_from f x l'
  end.

(** [a[:stop] = v]. *)
Definition slice_fill (a : list A) (stop : nat) (v : A) : list A :=
  replicate (Nat.min stop (length a)) v ++ drop stop a.
End Numpy.

(** [np.nonzero(b)[0]]: the indices of the true entries, ascending. *)
Fixpoint nonzero_from (i : nat) (b : list bool) : list nat :=
  match b with
  | [] => []
  | x :: b' => if x then i :: nonzero_from (S i) b' else nonzero_from (S i) b'
  end.

Definition nonzero (b : list bool) : list nat := nonzero_from 0 b.

(** [b.any()]. *)
Definition any (b : list bool) : bool := existsb (λ x, x) b.

(** ** stats.py *)

Section Stats.
Context {F : Float64}.

(** A boolean stored into a float array. *)
Definition of_bool (b : bool) : f64 := if b then fone else fzero.

(** [np.minimum] on two floats: NaN if either is. *)
Definition np_minimum (in1 in2 : f64) : f64 :=
  if fleb in1 in2 || fisnan in1 then in1 else in2.

(** [np.arange(1, nobs+1) / float(nobs)]. *)
Definition _ecdf (x : list f64) : list f64 :=
  let nobs := length x in
  map (λ i, fdiv (of_nat i) (of_nat nobs)) (seq 1 nobs).

(** The arrays of [fdrcorrection] in sorted order, by the line that
    computes them. *)
Definition provisional_reject (pvals_sorted : list f64) (alpha : f64)
  : list bool :=
  zip_with (λ p e, fleb p (fmul e alpha)) pvals_sorted (_ecdf pvals_sorted).

Definition stepup (reject : list bool) : list bool :=
  if any reject then slice_fill reject (max_list (nonzero reject)) true
  else reject.

Definition corrected_raw (pvals_sorted : list f64) : list f64 :=
  zip_with fdiv pvals_sorted (_ecdf pvals_sorted).

Definition running_min (raw : list f64) : list f64 :=
  rev (accumulate np_minimum (rev raw)).

Definition clamp (c : f64) : f64 := if fltb fone c then fone else c.

Definition corrected_sorted (pvals_sorted : list f64) : list f64 :=
  map clamp (running_min (corrected_raw pvals_sorted)).

(** [~np.isnan(_p)] and [_p[mask]]. *)
Definition nan_mask (ps : list f64) : list bool :=
  map (λ x, negb (fisnan x)) ps.

Definition non_nan (ps : list f64) : list f64 := compress (nan_mask ps) ps.

Section Corrections.
(** [np.argsort], and what uninitialised arrays hold. *)
Variable argsort : list f64 → list nat.
Variable junk_f : f64.
Variable junk_b : bool.

Definition fdrcorrection (pvals : list f64) (alpha : f64)
  : result (list bool * list f64) :=
  let pvals_sortind := argsort pvals in
  pvals_sorted ← np_take pvals pvals_sortind;
  let ecdffactor := _ecdf pvals_sorted in
  let reject :=
    zip_with (λ p e, fleb p (fmul e alpha)) pvals_sorted ecdffactor in
  let reject :=
    if any reject then
      let rejectmax := max_list (nonzero reject) in
      slice_fill reject rejectmax true
    else reject in
  let pvals_corrected_raw := zip_with fdiv pvals_sorted ecdffactor in
  let pvals_corrected :=
    rev (accumulate np_minimum (rev pvals_corrected_raw)) in
  let pvals_corrected :=
    map (λ c, if fltb fone c then fone else c) pvals_corrected in
  pvals_corrected_ ←
    index_assign (empty_like junk_f pvals_corrected)
                 pvals_sortind pvals_corrected;
  reject_ ← index_assign (empty_like junk_b reject) pvals_sortind reject;
  Ok (reject_, pvals_corrected_).

Definition multiple_testing_correction
    (ps : list f64) (alpha : f64) (method : string)
  : result (list f64 * list f64) :=
  let _p := ps in
  let q := _p in
  let rej := _p in
  let mask := map (λ x, negb (fisnan x)) _p in
  p ← bool_index _p mask;
  if String.eqb method "bonferroni" then
    q ← bool_assign q mask (map (λ x, fmul x (of_nat (length p))) p);
    qm ← bool_index q mask;
    rej ← bool_assign rej mask (map (λ x, of_bool (fltb x alpha)) qm);
    Ok (q, rej)
  else if String.eqb method "benjamini-hochberg" then
    '(_rej, _q) ← fdrcorrection p alpha;
    rej ← bool_assign rej mask (map of_bool _rej);
    q ← bool_assign q mask _q;
    Ok (q, rej)
  else Raise (ValueError method).
End Corrections.
End Stats.

(** A stable insertion argsort, one admissible [np.argsort]. *)
Section InsertionArgsort.
Context {F : Float64}.

Fixpoint insert_index (l : list f64) (i : nat) (s : list nat) : list nat :=
  match s with
  | [] => [i]
  | j :: s' =>
      match l !! i, l !! j with
      | Some x, Some y =>
          if fltb y x then j :: insert_index l i s' else i :: j :: s'
      | _, _ => i :: j :: s'
      end
  end.

Definition insertion_argsort (l : list f64) : list nat :=
  foldr (λ i s, insert_index l i s) [] (seq 0 (length l)).

(** The entries of [l] at the indices [a] and [b] are in order. *)
Definition in_order (l : list f64) (a b : nat) : Prop :=
  ∃ x y, l !! a = Some x ∧ l !! b = Some y ∧ fleb x y = true.
End InsertionArgsort.


(** Python's truth value of a float: [x != 0.0]. *)
Definition truth {F : Float64} (x : f64) : bool :=
  negb (fleb x fzero && fleb fzero x).

(** The pass-through the specification words for [correct_multiple_testing]:
    outputs aligned with the input, and a NaN q-value and a false flag
    wherever the input is NaN. *)
Definition nan_gives_nan_and_false {F : Float64}
    (out : result (list f64 * list f64)) (ps : list f64) : Prop :=
  ∃ q rej, out = Ok (q, rej) ∧
    length q = length ps ∧ length rej = length ps ∧
    ∀ i x, ps !! i = Some x → fisnan x = true →
      ∃ qi ri, q !! i = Some qi ∧ rej !! i = Some ri ∧
               fisnan qi = true ∧ truth ri = false.

(** A p-value array: every entry is NaN or lies in [0, 1]. *)
Definition unit_interval {F : Float64} (x : f64) : Prop :=
  fleb fzero x = true ∧ fleb x fone = true.

Definition valid_pvalues {F : Float64} (ps : list f64) : Prop :=
  Forall (λ x, fisnan x = true ∨ unit_interval x) ps.

(** The scenario of the specification: five p-values, one of them NaN,
    with alpha = 0.05, on exact rationals. *)
Definition scenario_pvalues : list xQ :=
  [XFin (1 # 1000); XFin (2 # 10); XFin (3 # 100); XNaN; XFin (4 # 100)].

Definition scenario_alpha : xQ := XFin (5 # 100).

(** What decides the Benjamini-Hochberg outputs of an entry of value [w]
    in the array [p], whatever the order of [p]: the number of entries up
    to [w], which is the rank of the last entry tied with [w]; the raw
    corrected value and the provisional test at that rank. *)
Section ByValue.
Context {F : Float64}.

#[export] Instance fleb_true_dec (x y : f64) : Decision (fleb x y = true).
Proof. apply _. Defined.

Definition count_le (p : list f64) (w : f64) : nat :=
  length (filter (λ y, fleb y w = true) p).

Definition tie_raw (p : list f64) (w : f64) : f64 :=
  fdiv w (fdiv (of_nat (count_le p w)) (of_nat (length p))).

Definition tie_test (p : list f64) (alpha w : f64) : bool :=
  fleb w (fmul (fdiv (of_nat (count_le p w)) (of_nat (length p))) alpha).

(** [c] is a least [tie_raw] among the entries from [v] upwards. *)
Definition tail_min (p : list f64) (v c : f64) : Prop :=
  (∀ w, w ∈ p → fleb v w = true → fleb c (tie_raw p w) = true) ∧
  (∃ w, w ∈ p ∧ fleb v w = true ∧ fleb (tie_raw p w) c = true).

(** Some entry from [v] upwards passes the test at its last tied rank. *)
Definition tail_passes (p : list f64) (alpha v : f64) : Prop :=
  ∃ w, w ∈ p ∧ fleb v w = true ∧ tie_test p alpha w = true.
End ByValue.

(** What [np.argsort] promises: a permutation of the indices that lists
    the values in ascending order. *)
Section ArgsortSpec.
Context {F : Float64}.

Definition fle (x y : f64) : Prop := fleb x y = true.

Definition nan_free (l : list f64) : Prop := Forall (λ x, fisnan x = false) l.

Definition argsort_permutes (argsort : list f64 → list nat) : Prop :=
  ∀ l, argsort l ≡ₚ seq 0 (length l).

Definition argsort_sorts (argsort : list f64 → list nat) : Prop :=
  ∀ l, nan_free l →
    ∀ j k a b x y, j ≤ k →
      argsort l !! j = Some a → argsort l !! k = Some b →
      l !! a = Some x → l !! b = Some y → fle x y.
End ArgsortSpec.

(** The order and monotonicity properties of float64 arithmetic the
    Benjamini-Hochberg theorems use. Correctly rounded binary64 operations
    have them (rounding is monotone, and [i/n] neither underflows nor
    overflows for array lengths below [2^63]); the proofs below are for the
    exact instance. *)
Class Float64Laws (F : Float64) : Prop := {
  fleb_notnan x y : fleb x y = true → fisnan x = false ∧ fisnan y = false;
  fleb_total x y :
    fisnan x = false → fisnan y = false → fleb x y = true ∨ fleb y x = true;
  fleb_trans x y z : fleb x y = true → fleb y z = true → fleb x z = true;
  fltb_fleb x y : fltb x y = fleb x y && negb (fleb y x);
  fzero_le_fone : fleb fzero fone = true;
  frac_pos i n :
    1 ≤ i → i ≤ n → (Z.of_nat n < 2 ^ 63)%Z →
    fltb fzero (fdiv (of_nat i) (of_nat n)) = true;
  frac_le_one i n :
    1 ≤ i → i ≤ n → (Z.of_nat n < 2 ^ 63)%Z →
    fleb (fdiv (of_nat i) (of_nat n)) fone = true;
  frac_mono i j n :
    1 ≤ i → i ≤ j → j ≤ n → (Z.of_nat n < 2 ^ 63)%Z →
    fleb (fdiv (of_nat i) (of_nat n)) (fdiv (of_nat j) (of_nat n)) = true;
  fdiv_nonneg p e :
    fleb fzero p = true → fleb p fone = true → fltb fzero e = true →
    fleb fzero (fdiv p e) = true;
  fdiv_mono_num p p' e :
    fleb fzero p = true → fleb p p' = true → fleb p' fone = true →
    fltb fzero e = true →
    fleb (fdiv p e) (fdiv p' e) = true;
  fdiv_anti_den p e e' :
    fleb fzero p = true → fleb p fone = true →
    fltb fzero e = true → fleb e e' = true →
    fleb (fdiv p e') (fdiv p e) = true;
  fmul_mono e e' a :
    fltb fzero e = true → fleb e e' = true → fleb e' fone = true →
    fleb fzero a = true →
    fleb (fmul e a) (fmul e' a) = true
}.

(** ** calc_pvalues *)

(** What [zip( *vals)] yields: nothing for no rows, else the four columns. *)
Inductive columns (P : Type) : Type :=
| NoColumns
| Columns (pvals : list P) (xs ms : list Z) (hits : list (gset string)).
Arguments NoColumns {P}.
Arguments Columns {P} pvals xs ms hits.

(** [vals = []; for a in l: vals.append(f(a))]. *)
Fixpoint collect {A B : Type} (f : A → result B) (l : list A) : result (list B) :=
  match l with
  | [] => Ok []
  | a :: l' => b ← f a; bs ← collect f l'; Ok (b :: bs)
  end.

(** String comparison, by code point, and [sorted]. *)
Definition str_le (a b : string) : Prop := String.leb a b = true.

#[export] Instance str_le_dec (a b : string) : Decision (str_le a b).
Proof. unfold str_le. apply _. Defined.

Definition sorted (l : list string) : list string := merge_sort str_le l.

(** A dict is the list of its items in iteration order, keys distinct. *)
Definition dict (V : Type) : Type := list (string * V).

Definition keys {V : Type} (d : dict V) : list string := map fst d.

Fixpoint get {V : Type} (d : dict V) (s : string) : option V :=
  match d with
  | [] => None
  | (k, v) :: d' => if String.eqb k s then Some v else get d' s
  end.

Section Enrichment.
Context {P : Type}.
(** [hypergeom.sf(k, M, n, N)]. *)
Variable sf : Z → Z → Z → Z → P.

Definition zip_star (vals : list (P * Z * Z * gset string)) : columns P :=
  match vals with
  | [] => NoColumns
  | _ => Columns (map (λ v, v.1.1.1) vals) (map (λ v, v.1.1.2) vals)
                 (map (λ v, v.1.2) vals) (map (λ v, v.2) vals)
  end.

Definition calc_pvalues
    (query : list string) (gene_sets : dict (list string))
    (background : option Z) : result (columns P) :=
  let k := Z.of_nat (length query) in
  let bg_num := match background with None => 20000%Z | Some b => b end in
  let query : gset string := list_to_set query in
  let subsets := sorted (keys gene_sets) in
  vals ← collect (λ s,
    match get gene_sets s with
    | None => Raise TypeError
    | Some category =>
        let m := Z.of_nat (length category) in
        let hits := query ∩ list_to_set category in
        let x := Z.of_nat (size hits) in
        Ok (sf (x - 1) bg_num m k, x, m, hits)
    end) subsets;
  Ok (zip_star vals).
End Enrichment.

(** Binomial coefficients. *)
Fixpoint binom (n k : nat) : nat :=
  match n, k with
  | _, 0 => 1
  | 0, S _ => 0
  | S n', S k' => binom n' k' + binom n' (S k')
  end.

(** [f 0 + ... + f m]. *)
Fixpoint sum_upto (f : nat → nat) (m : nat) : nat :=
  match m with
  | 0 => f 0
  | S m' => sum_upto f m' + f m
  end.

(** Modelled from the spec: [scipy.stats.hypergeom.sf], which the source
    imports and the repository does not contain. Section 4.1 defines it as
    the upper tail [P(X > k)] of the hypergeometric distribution with
    population size [M], [n] success items and [N] draws; section 7 asks
    for a domain error, here NaN, when the population is smaller than the
    parameters require. The tail is computed exactly. *)
Definition hypergeom_sf (k M n N : Z) : xQ :=
  if bool_decide (0 < M ∧ 0 ≤ n ∧ n ≤ M ∧ 0 ≤ N ∧ N ≤ M)%Z then
    let M' := Z.to_nat M in
    let n' := Z.to_nat n in
    let N' := Z.to_nat N in
    let tail :=
      sum_upto (λ j, if bool_decide (k < Z.of_nat j)%Z
                     then binom n' j * binom (M' - n') (N' - j) else 0) N' in
    XFin (Qred (inject_Z (Z.of_nat tail) / inject_Z (Z.of_nat (binom M' N'))))
  else XNaN.

(** One row of [vals]: the tuple appended for a category. *)
Definition enrichment_row {P : Type} (sf : Z → Z → Z → Z → P)
    (query : list string) (background : option Z) (category : list string)
  : P * Z * Z * gset string :=
  let k := Z.of_nat (length query) in
  let bg_num := match background with None => 20000%Z | Some b => b end in
  let m := Z.of_nat (length category) in
  let hits : gset string := list_to_set query ∩ list_to_set category in
  let x := Z.of_nat (size hits) in
  (sf (x - 1)%Z bg_num m k, x, m, hits).

(** The sentence of the specification on categories without overlap, for
    the modelled survival function: wherever the overlap count is 0 the
    p-value is exactly 1. *)
Definition zero_overlap_gives_one
    (query : list string) (gene_sets : dict (list string))
    (background : option Z) : Prop :=
  ∀ pvals xs ms hits i,
    calc_pvalues hypergeom_sf query gene_sets background
      = Ok (Columns pvals xs ms hits) →
    xs !! i = Some 0%Z → pvals !! i = Some (XFin 1).

(** ** Further notions for the properties beyond the specification *)

(** The distinct identifiers of the query that occur in a category. *)
Definition shared (query category : list string) : list string :=
  filter (λ g, g ∈ category) (remove_dups query).

(** Two mappings with the same keys in the same order, whose categories
    list the same members in some order. *)
Definition same_members (d d' : dict (list string)) : Prop :=
  Forall2 (λ a b, a.1 = b.1 ∧ a.2 ≡ₚ b.2) d d'.

(** Four more properties of float64 arithmetic, which correctly rounded
    binary64 operations have as well: [1 * a] and [p / 1] are exact, and a
    product grows with either factor. *)
Class Float64UnitLaws (F : Float64) : Prop := {
  fmul_one_l a : fleb fzero a = true → fleb (fmul fone a) a = true;
  fdiv_one_r p :
    fleb fzero p = true → fleb p fone = true → fleb p (fdiv p fone) = true;
  fmul_nat_ge p N :
    fleb fzero p = true → 1 ≤ N → (Z.of_nat N < 2 ^ 63)%Z →
    fleb p (fmul p (of_nat N)) = true;
  fmul_mono_r e a a' :
    fltb fzero e = true → fleb e fone = true →
    fleb fzero a = true → fleb a a' = true →
    fleb (fmul e a) (fmul e a') = true
}.

(** * Facts about the numpy primitives *)

Lemma StronglySorted_lookup_lt {A} (R : relation A) (s : list A) j k a b :
  StronglySorted R s → j < k → s !! j = Some a → s !! k = Some b → R a b.
Proof.
  intros Hs. revert j k. induction Hs as [|c s Hs IH Hc]; intros j k Hjk Ha Hb.
  - by rewrite lookup_nil in Ha.
  - destruct k as [|k]; [lia|]. destruct j as [|j]; simplify_eq/=.
    + eapply Forall_lookup_1; done.
    + apply (IH j k); [lia|done..].
Qed.

Section NumpyFacts.
Context {A : Type}.
Implicit Types (a vals : list A) (mask : list bool).

Lemma count_true_cons b mask :
  count_true (b :: mask) = if b then S (count_true mask) else count_true mask.
Proof.
  unfold count_true. rewrite filter_cons.
  destruct b; case_decide; simpl; congruence.
Qed.

Lemma length_compress mask a :
  length mask = length a → length (compress mask a) = count_true mask.
Proof.
  revert a. induction mask as [|b mask IH]; intros [|x a] Hlen;
    simplify_eq/=; [done|].
  rewrite count_true_cons. destruct b; simpl; auto.
Qed.

Lemma length_scatter mask a vals : length (scatter mask a vals) = length a.
Proof.
  revert a vals. induction mask as [|b mask IH]; intros [|x a] vals; try done.
  simpl. destruct b; [destruct vals|]; simpl; auto.
Qed.

Lemma compress_scatter mask a vals :
  length mask = length a → length vals = count_true mask →
  compress mask (scatter mask a vals) = vals.
Proof.
  revert a vals. induction mask as [|b mask IH]; intros [|x a] vals Hlen;
    rewrite ?count_true_cons; simplify_eq/=.
  - by intros ->%nil_length_inv.
  - destruct b; [destruct vals as [|v vals]|]; intros; simplify_eq/=;
      [f_equal|]; auto.
Qed.

Lemma scatter_lookup_false mask a vals i :
  mask !! i = Some false → scatter mask a vals !! i = a !! i.
Proof.
  revert a vals i. induction mask as [|b mask IH]; intros [|x a] vals [|i] Hi;
    simplify_eq/=; try done.
  - destruct b; [destruct vals|]; simpl; auto.
Qed.

(** Writing [f] of the selected entries back in place. *)
Lemma scatter_map_compress (f : A → A) mask a i x :
  length mask = length a → mask !! i = Some true → a !! i = Some x →
  scatter mask a (map f (compress mask a)) !! i = Some (f x).
Proof.
  revert a i. induction mask as [|b mask IH]; intros [|y a] [|i] Hlen Hm Ha;
    simplify_eq/=; try done.
  destruct b; simpl; eauto.
Qed.

(** The [i]-th place, when selected, holds the value whose rank among
    the selected places is the number of selected places before [i]. *)
Lemma compress_lookup mask a i :
  length mask = length a → mask !! i = Some true →
  compress mask a !! count_true (take i mask) = a !! i.
Proof.
  revert a i. induction mask as [|b mask IH]; intros [|x a] [|i] Hlen Hm;
    simplify_eq/=; try done.
  rewrite count_true_cons. destruct b; simpl; auto.
Qed.

Lemma scatter_lookup_true mask a vals i :
  length mask = length a → length vals = count_true mask →
  mask !! i = Some true →
  scatter mask a vals !! i = vals !! count_true (take i mask).
Proof.
  revert a vals i. induction mask as [|b mask IH]; intros [|x a] vals [|i];
    rewrite ?count_true_cons; intros Hlen Hvals Hm; simplify_eq/=; try done.
  - by destruct vals.
  - rewrite count_true_cons.
    destruct b; [destruct vals as [|v vals]|]; simplify_eq/=; auto.
Qed.

Lemma scatter_all_false mask a vals :
  Forall (λ b, b = false) mask → scatter mask a vals = a.
Proof.
  intros Hall. revert a vals. induction Hall as [|b mask -> _ IH];
    intros [|x a] vals; simpl; try done. by rewrite IH.
Qed.

Lemma compress_all_false mask a :
  Forall (λ b, b = false) mask → compress mask a = [].
Proof.
  intros Hall. revert a. induction Hall as [|b mask -> _ IH];
    intros [|x a]; simpl; done.
Qed.

Lemma count_true_take_lt mask i :
  mask !! i = Some true → count_true (take i mask) < count_true mask.
Proof.
  revert i. induction mask as [|b mask IH]; intros [|i] Hm; simplify_eq/=.
  - rewrite count_true_cons. unfold count_true. simpl. lia.
  - rewrite !count_true_cons. specialize (IH _ Hm). destruct b; lia.
Qed.

Lemma bool_index_ok a mask :
  length mask = length a → bool_index a mask = Ok (compress mask a).
Proof. intros Hlen. unfold bool_index. by rewrite Hlen, Nat.eqb_refl. Qed.

Lemma bool_assign_ok a mask vals :
  length mask = length a → length vals = count_true mask →
  bool_assign a mask vals = Ok (scatter mask a vals).
Proof.
  intros Hlen Hvals. unfold bool_assign.
  by rewrite Hlen, Hvals, !Nat.eqb_refl.
Qed.

Lemma np_take_ok a inds :
  Forall (λ i, i < length a) inds →
  ∃ r, np_take a inds = Ok r ∧ length r = length inds ∧
       ∀ k i, inds !! k = Some i → r !! k = a !! i.
Proof.
  induction 1 as [|i inds Hi _ (r & Hr & Hlen & Hlook)]; simpl.
  - exists []. split_and!; [done..|]. by intros k i.
  - apply lookup_lt_is_Some_2 in Hi as [x Hx]. rewrite Hx, Hr. simpl.
    exists (x :: r). split_and!; [done|simpl; lia|].
    intros [|k] j Hj; simplify_eq/=; auto.
Qed.

Lemma put_ok inds : ∀ a vals,
  NoDup inds → Forall (λ i, i < length a) inds →
  length vals = length inds →
  ∃ r, put a inds vals = Ok r ∧ length r = length a ∧
       (∀ k i, inds !! k = Some i → r !! i = vals !! k) ∧
       (∀ i, i ∉ inds → r !! i = a !! i).
Proof.
  induction inds as [|i inds IH]; intros a [|v vals] Hnd Hlt Hlen;
    simplify_eq/=.
  - exists a. split_and!; try done.
  - apply NoDup_cons in Hnd as [Hi Hnd].
    apply Forall_cons in Hlt as [Hlt Hlts].
    apply Nat.ltb_lt in Hlt as Hlt'. rewrite Hlt'.
    destruct (IH (<[i:=v]> a) vals) as (r & Hr & Hlenr & Hin & Hout);
      [done| |done|].
    { by rewrite length_insert. }
    exists r. rewrite length_insert in Hlenr. split_and!; [done..| |].
    + intros [|k] j Hj; simplify_eq/=; [|by apply Hin].
      rewrite Hout by done. by apply list_lookup_insert_eq.
    + intros j Hj. apply not_elem_of_cons in Hj as [Hne Hj].
      rewrite Hout by done. by apply list_lookup_insert_ne.
Qed.

(** Assigning through a permutation of all the indices overwrites the
    whole array. *)
Lemma index_assign_permutation a inds vals :
  inds ≡ₚ seq 0 (length a) → length vals = length a →
  ∃ r, index_assign a inds vals = Ok r ∧ length r = length a ∧
       ∀ k i, inds !! k = Some i → r !! i = vals !! k.
Proof.
  intros Hperm Hlen.
  assert (length inds = length a) as Hli.
  { by rewrite Hperm, length_seq. }
  unfold index_assign. rewrite Hlen, Hli, Nat.eqb_refl.
  destruct (put_ok inds a vals) as (r & Hr & Hlenr & Hin & _).
  - rewrite Hperm. apply NoDup_seq.
  - apply Forall_forall. intros i Hi. rewrite Hperm in Hi.
    apply elem_of_seq in Hi. lia.
  - congruence.
  - eauto.
Qed.
End NumpyFacts.

(** * Facts about the corrections *)

Section CorrectionFacts.
Context {F : Float64}.
Variable argsort : list f64 → list nat.
Variable junk_f : f64.
Variable junk_b : bool.
Implicit Types (ps p : list f64) (alpha : f64).

Local Abbreviation fdrcorrection := (fdrcorrection argsort junk_f junk_b).
Local Abbreviation multiple_testing_correction :=
  (multiple_testing_correction argsort junk_f junk_b).

Lemma length_ecdf (x : list f64) : length (_ecdf x) = length x.
Proof. unfold _ecdf. by rewrite length_map, length_seq. Qed.

Lemma lookup_ecdf (x : list f64) k :
  k < length x →
  _ecdf x !! k = Some (fdiv (of_nat (S k)) (of_nat (length x))).
Proof.
  intros Hk. unfold _ecdf.
  rewrite list_lookup_fmap, lookup_seq_lt by done. done.
Qed.

Lemma length_accumulate_from {A} (f : A → A → A) acc (l : list A) :
  length (accumulate_from f acc l) = length l.
Proof. revert acc. induction l; intros; simpl; auto. Qed.

Lemma length_accumulate {A} (f : A → A → A) (l : list A) :
  length (accumulate f l) = length l.
Proof. destruct l; simpl; [done|]. by rewrite length_accumulate_from. Qed.

Lemma length_slice_fill {A} (a : list A) stop v :
  length (slice_fill a stop v) = length a.
Proof.
  unfold slice_fill. rewrite length_app, length_replicate, length_drop. lia.
Qed.

Lemma length_provisional_reject (psort : list f64) alpha :
  length (provisional_reject psort alpha) = length psort.
Proof.
  unfold provisional_reject.
  rewrite length_zip_with, length_ecdf. lia.
Qed.

Lemma length_stepup (reject : list bool) : length (stepup reject) = length reject.
Proof.
  unfold stepup. destruct (any reject); [|done]. apply length_slice_fill.
Qed.

Lemma length_corrected_raw (psort : list f64) :
  length (corrected_raw psort) = length psort.
Proof. unfold corrected_raw. rewrite length_zip_with, length_ecdf. lia. Qed.

Lemma length_running_min (raw : list f64) :
  length (running_min raw) = length raw.
Proof.
  unfold running_min. by rewrite length_rev, length_accumulate, length_rev.
Qed.

Lemma length_corrected_sorted (psort : list f64) :
  length (corrected_sorted psort) = length psort.
Proof.
  unfold corrected_sorted.
  by rewrite length_map, length_running_min, length_corrected_raw.
Qed.

Lemma length_nan_mask ps : length (nan_mask ps) = length ps.
Proof. apply length_map. Qed.

Lemma length_non_nan ps : length (non_nan ps) = count_true (nan_mask ps).
Proof. apply length_compress, length_nan_mask. Qed.

Lemma nan_free_non_nan ps : nan_free (non_nan ps).
Proof.
  unfold nan_free, non_nan, nan_mask.
  induction ps as [|x ps IH]; simpl; [constructor|].
  destruct (fisnan x) eqn:Hx; simpl; [done|]. by constructor.
Qed.

Lemma nan_mask_lookup ps i x :
  ps !! i = Some x → nan_mask ps !! i = Some (negb (fisnan x)).
Proof. intros Hx. unfold nan_mask. by rewrite list_lookup_fmap, Hx. Qed.

Lemma bind_Ok {A B} (a : A) (k : A → result B) : (Ok a ≫= k) = k a.
Proof. reflexivity. Qed.

Lemma fdrcorrection_unfold p alpha :
  fdrcorrection p alpha =
    (psort ← np_take p (argsort p);
     q_ ← index_assign (empty_like junk_f (corrected_sorted psort))
                       (argsort p) (corrected_sorted psort);
     rej_ ← index_assign
              (empty_like junk_b (stepup (provisional_reject psort alpha)))
              (argsort p) (stepup (provisional_reject psort alpha));
     Ok (rej_, q_)).
Proof. reflexivity. Qed.

Lemma multiple_testing_correction_unfold ps alpha method :
  multiple_testing_correction ps alpha method =
    (p ← bool_index ps (nan_mask ps);
     if String.eqb method "bonferroni" then
       q ← bool_assign ps (nan_mask ps)
             (map (λ x, fmul x (of_nat (length p))) p);
       qm ← bool_index q (nan_mask ps);
       rej ← bool_assign ps (nan_mask ps)
               (map (λ x, of_bool (fltb x alpha)) qm);
       Ok (q, rej)
     else if String.eqb method "benjamini-hochberg" then
       '(_rej, _q) ← fdrcorrection p alpha;
       rej ← bool_assign ps (nan_mask ps) (map of_bool _rej);
       q ← bool_assign ps (nan_mask ps) _q;
       Ok (q, rej)
     else Raise (ValueError method)).
Proof. reflexivity. Qed.

(** [fdrcorrection] line by line, once the sort indices are known to be a
    permutation: nothing raises, and the outputs are the sorted-order
    arrays read back through the permutation. *)
Lemma fdrcorrection_view p alpha :
  argsort_permutes argsort →
  ∃ psort rej q,
    np_take p (argsort p) = Ok psort ∧
    length psort = length p ∧
    (∀ k i, argsort p !! k = Some i → psort !! k = p !! i) ∧
    fdrcorrection p alpha = Ok (rej, q) ∧
    length rej = length p ∧ length q = length p ∧
    ∀ k i, argsort p !! k = Some i →
      rej !! i = stepup (provisional_reject psort alpha) !! k ∧
      q !! i = corrected_sorted psort !! k.
Proof.
  intros Hperm. specialize (Hperm p).
  assert (length (argsort p) = length p) as Hlen.
  { by rewrite Hperm, length_seq. }
  destruct (np_take_ok p (argsort p)) as (psort & Htake & Hlps & Hlook).
  { apply Forall_forall. intros i Hi. rewrite Hperm in Hi.
    apply elem_of_seq in Hi. lia. }
  assert (length psort = length p) as Hlp by congruence.
  destruct (index_assign_permutation
              (empty_like junk_f (corrected_sorted psort)) (argsort p)
              (corrected_sorted psort)) as (q & Hq & Hlq & Hqk).
  { unfold empty_like. by rewrite length_replicate, length_corrected_sorted, Hlp. }
  { unfold empty_like. by rewrite length_replicate. }
  destruct (index_assign_permutation
              (empty_like junk_b (stepup (provisional_reject psort alpha)))
              (argsort p) (stepup (provisional_reject psort alpha)))
    as (rej & Hrej & Hlrej & Hrejk).
  { unfold empty_like.
    by rewrite length_replicate, length_stepup, length_provisional_reject, Hlp. }
  { unfold empty_like. by rewrite length_replicate. }
  exists psort, rej, q. split_and!; try done.
  - by rewrite fdrcorrection_unfold, Htake, bind_Ok, Hq, bind_Ok, Hrej, bind_Ok.
  - unfold empty_like in Hlrej.
    by rewrite Hlrej, length_replicate, length_stepup,
      length_provisional_reject.
  - unfold empty_like in Hlq.
    by rewrite Hlq, length_replicate, length_corrected_sorted.
  - intros k i Hk. split; eauto.
Qed.

(** The Benjamini-Hochberg branch of [multiple_testing_correction]. *)
Lemma multiple_testing_correction_bh ps alpha :
  argsort_permutes argsort →
  ∃ rej_ q_,
    fdrcorrection (non_nan ps) alpha = Ok (rej_, q_) ∧
    length rej_ = length (non_nan ps) ∧ length q_ = length (non_nan ps) ∧
    multiple_testing_correction ps alpha "benjamini-hochberg" =
      Ok (scatter (nan_mask ps) ps q_,
          scatter (nan_mask ps) ps (map of_bool rej_)).
Proof.
  intros Hperm.
  destruct (fdrcorrection_view (non_nan ps) alpha Hperm)
    as (psort & rej_ & q_ & _ & _ & _ & Hfdr & Hlrej & Hlq & _).
  exists rej_, q_. split_and!; try done.
  rewrite multiple_testing_correction_unfold.
  rewrite bool_index_ok, bind_Ok by apply length_nan_mask.
  change (String.eqb "benjamini-hochberg" "bonferroni") with false.
  change (String.eqb "benjamini-hochberg" "benjamini-hochberg") with true.
  cbv iota. fold (non_nan ps). rewrite Hfdr, bind_Ok.
  rewrite (bool_assign_ok _ _ (map of_bool rej_));
    [rewrite bind_Ok|apply length_nan_mask|].
  2:{ by rewrite length_map, Hlrej, length_non_nan. }
  rewrite bool_assign_ok; [done|apply length_nan_mask|].
  by rewrite Hlq, length_non_nan.
Qed.

(** The Bonferroni branch. *)
Lemma multiple_testing_correction_bonferroni ps alpha :
  let N := length (non_nan ps) in
  let q := scatter (nan_mask ps) ps
             (map (λ x, fmul x (of_nat N)) (non_nan ps)) in
  multiple_testing_correction ps alpha "bonferroni" =
    Ok (q, scatter (nan_mask ps) ps
             (map (λ x, of_bool (fltb x alpha)) (compress (nan_mask ps) q))).
Proof.
  intros N q.
  rewrite multiple_testing_correction_unfold.
  rewrite bool_index_ok, bind_Ok by apply length_nan_mask.
  change (String.eqb "bonferroni" "bonferroni") with true.
  cbv iota. fold (non_nan ps). fold N.
  rewrite (bool_assign_ok _ _ (map _ (non_nan ps)));
    [rewrite bind_Ok|apply length_nan_mask|].
  2:{ by rewrite length_map, length_non_nan. }
  fold q.
  rewrite bool_index_ok, bind_Ok.
  2:{ unfold q. by rewrite length_scatter, length_nan_mask. }
  rewrite bool_assign_ok; [done|apply length_nan_mask|].
  rewrite length_map, length_compress; [done|].
  unfold q. by rewrite length_scatter, length_nan_mask.
Qed.

Lemma multiple_testing_correction_unknown ps alpha method :
  method ≠ "bonferroni"%string → method ≠ "benjamini-hochberg"%string →
  multiple_testing_correction ps alpha method = Raise (ValueError method).
Proof.
  intros H1%String.eqb_neq H2%String.eqb_neq.
  rewrite multiple_testing_correction_unfold.
  rewrite bool_index_ok, bind_Ok by apply length_nan_mask.
  by rewrite H1, H2.
Qed.
End CorrectionFacts.

(** * The insertion argsort returns a permutation *)

Section InsertionArgsortFacts.
Context {F : Float64}.

Lemma insert_index_Permutation (l : list f64) i s : insert_index l i s ≡ₚ i :: s.
Proof.
  induction s as [|j s IH]; simpl; [done|].
  destruct (l !! i), (l !! j); try done.
  destruct (fltb _ _); [|done]. rewrite IH. apply Permutation_swap.
Qed.

Lemma insertion_argsort_permutes : argsort_permutes insertion_argsort.
Proof.
  intros l. unfold insertion_argsort.
  induction (seq 0 (length l)) as [|i s IH]; simpl; [done|].
  by rewrite insert_index_Permutation, IH.
Qed.
End InsertionArgsortFacts.

(** * NaN pass-through, Bonferroni, and the error behaviour *)

Section PassThrough.
Context {F : Float64}.
Variable argsort : list f64 → list nat.
Variable junk_f : f64.
Variable junk_b : bool.
Hypothesis argsort_perm : argsort_permutes argsort.
Implicit Types (ps : list f64) (alpha : f64) (method : string).

Local Abbreviation multiple_testing_correction :=
  (multiple_testing_correction argsort junk_f junk_b).

Lemma non_nan_filter ps : non_nan ps = filter (λ x, fisnan x = false) ps.
Proof.
  unfold non_nan, nan_mask. induction ps as [|x ps IH]; simpl; [done|].
  destruct (fisnan x) eqn:Hx; simpl.
  - rewrite filter_cons_False by congruence. done.
  - rewrite filter_cons_True by done. by f_equal.
Qed.

Lemma nan_mask_all_nan ps :
  Forall (λ x, fisnan x = true) ps → Forall (λ b, b = false) (nan_mask ps).
Proof.
  unfold nan_mask. induction 1 as [|x ps Hx _ IH]; simpl; constructor; auto.
  by rewrite Hx.
Qed.

(** Both recognised methods return two arrays as long as the input, equal
    to the input wherever it is NaN, the second one holding 1.0 or 0.0
    elsewhere. *)
Lemma multiple_testing_correction_aligned ps alpha method :
  method = "bonferroni"%string ∨ method = "benjamini-hochberg"%string →
  ∃ q rej,
    multiple_testing_correction ps alpha method = Ok (q, rej) ∧
    length q = length ps ∧ length rej = length ps ∧
    (∀ i x, ps !! i = Some x → fisnan x = true →
       q !! i = Some x ∧ rej !! i = Some x) ∧
    (∀ i x, ps !! i = Some x → fisnan x = false →
       ∃ b, rej !! i = Some (of_bool b)).
Proof.
  intros [->| ->].
  - rewrite multiple_testing_correction_bonferroni.
    eexists _, _. split_and!; [done|by rewrite length_scatter..| |].
    + intros i x Hx Hnan.
      assert (nan_mask ps !! i = Some false) as Hm.
      { by rewrite (nan_mask_lookup _ _ _ Hx), Hnan. }
      by rewrite !scatter_lookup_false.
    + intros i x Hx Hnan.
      assert (nan_mask ps !! i = Some true) as Hm.
      { by rewrite (nan_mask_lookup _ _ _ Hx), Hnan. }
      rewrite scatter_lookup_true; [|apply length_nan_mask| |done].
      2:{ rewrite length_map, length_compress; [done|].
          by rewrite length_scatter, length_nan_mask. }
      rewrite list_lookup_fmap.
      destruct (lookup_lt_is_Some_2
                  (compress (nan_mask ps)
                     (scatter (nan_mask ps) ps
                        (map (λ x, fmul x (of_nat (length (non_nan ps))))
                           (non_nan ps))))
                  (count_true (take i (nan_mask ps)))) as [y Hy].
      { rewrite length_compress by (by rewrite length_scatter, length_nan_mask).
        by apply count_true_take_lt. }
      rewrite Hy. simpl. eauto.
  - destruct (multiple_testing_correction_bh argsort junk_f junk_b ps alpha
                argsort_perm) as (rej_ & q_ & _ & Hlrej & Hlq & ->).
    eexists _, _. split_and!; [done|by rewrite length_scatter..| |].
    + intros i x Hx Hnan.
      assert (nan_mask ps !! i = Some false) as Hm.
      { by rewrite (nan_mask_lookup _ _ _ Hx), Hnan. }
      by rewrite !scatter_lookup_false.
    + intros i x Hx Hnan.
      assert (nan_mask ps !! i = Some true) as Hm.
      { by rewrite (nan_mask_lookup _ _ _ Hx), Hnan. }
      rewrite scatter_lookup_true; [|apply length_nan_mask| |done].
      2:{ by rewrite length_map, Hlrej, length_non_nan. }
      rewrite list_lookup_fmap.
      destruct (lookup_lt_is_Some_2 rej_ (count_true (take i (nan_mask ps))))
        as [b Hb].
      { rewrite Hlrej, length_non_nan. by apply count_true_take_lt. }
      rewrite Hb. simpl. eauto.
Qed.

(** C1 (as amended). For both methods the two outputs are aligned with the
    input, and at every index whose input entry is NaN the q-value and the
    reject entry are both that NaN entry: the reject array starts as a float
    copy of the input, so it holds NaN there, and 1.0 or 0.0 at the other
    indices. *)
Theorem nan_positions_carry_the_input ps alpha method :
  method = "bonferroni"%string ∨ method = "benjamini-hochberg"%string →
  ∃ q rej,
    multiple_testing_correction ps alpha method = Ok (q, rej) ∧
    length q = length ps ∧ length rej = length ps ∧
    (∀ i x, ps !! i = Some x → fisnan x = true →
       q !! i = Some x ∧ rej !! i = Some x ∧
       ∃ qi ri, q !! i = Some qi ∧ rej !! i = Some ri ∧
                fisnan qi = true ∧ fisnan ri = true) ∧
    (∀ i x, ps !! i = Some x → fisnan x = false →
       rej !! i = Some fone ∨ rej !! i = Some fzero).
Proof.
  intros Hm.
  destruct (multiple_testing_correction_aligned ps alpha method Hm)
    as (q & rej & Hok & Hlq & Hlrej & Hnan & Hflag).
  exists q, rej. split_and!; try done.
  - intros i x Hx Hxnan. destruct (Hnan i x Hx Hxnan) as [Hq Hr].
    split_and!; [done..|]. by exists x, x.
  - intros i x Hx Hxnan. destruct (Hflag i x Hx Hxnan) as [[] ->]; auto.
Qed.

(** C9. [multiple_testing_correction] raises exactly when the method is
    neither 'bonferroni' nor 'benjamini-hochberg'; it then raises
    [ValueError(method)] and returns no arrays; for the two recognised
    methods it returns two arrays, whatever the float array. *)
Theorem raises_iff_method_unknown ps alpha method :
  ((∃ e, multiple_testing_correction ps alpha method = Raise e) ↔
     method ≠ "bonferroni"%string ∧ method ≠ "benjamini-hochberg"%string) ∧
  (method ≠ "bonferroni"%string → method ≠ "benjamini-hochberg"%string →
     multiple_testing_correction ps alpha method = Raise (ValueError method)) ∧
  (method = "bonferroni"%string ∨ method = "benjamini-hochberg"%string →
     ∃ q rej, multiple_testing_correction ps alpha method = Ok (q, rej) ∧
              length q = length ps ∧ length rej = length ps).
Proof.
  assert (method = "bonferroni"%string ∨ method = "benjamini-hochberg"%string →
     ∃ q rej, multiple_testing_correction ps alpha method = Ok (q, rej) ∧
              length q = length ps ∧ length rej = length ps) as Hok.
  { intros Hm.
    destruct (multiple_testing_correction_aligned ps alpha method Hm)
      as (q & rej & ? & ? & ? & _). by exists q, rej. }
  split_and!; [|apply multiple_testing_correction_unknown|done].
  split.
  - intros [e He]. split; intros ->.
    + destruct Hok as (q & rej & Hq & _); [by left|congruence].
    + destruct Hok as (q & rej & Hq & _); [by right|congruence].
  - intros [H1 H2]. exists (ValueError method).
    by apply multiple_testing_correction_unknown.
Qed.

(** C10. On an empty array and on an array of NaN only, both methods return
    without raising: the non-NaN subset is empty, [_ecdf] of it is the
    empty array, and the two outputs are the input itself (empty, or NaN at
    every index). *)
Theorem empty_and_all_nan_inputs_return ps alpha method :
  method = "bonferroni"%string ∨ method = "benjamini-hochberg"%string →
  Forall (λ x, fisnan x = true) ps →
  non_nan ps = [] ∧ _ecdf (non_nan ps) = [] ∧
  multiple_testing_correction ps alpha method = Ok (ps, ps).
Proof.
  intros Hm Hall.
  assert (non_nan ps = []) as Hnil.
  { apply compress_all_false, nan_mask_all_nan, Hall. }
  split_and!; [done|by rewrite Hnil|].
  destruct Hm as [->| ->].
  - rewrite multiple_testing_correction_bonferroni.
    by rewrite !scatter_all_false by (by apply nan_mask_all_nan).
  - destruct (multiple_testing_correction_bh argsort junk_f junk_b ps alpha
                argsort_perm) as (rej_ & q_ & _ & _ & _ & ->).
    by rewrite !scatter_all_false by (by apply nan_mask_all_nan).
Qed.

(** Bonferroni at the non-NaN indices, for any float64 implementation. *)
Lemma bonferroni_pointwise ps alpha :
  let N := length (filter (λ x, fisnan x = false) ps) in
  ∃ q rej,
    multiple_testing_correction ps alpha "bonferroni" = Ok (q, rej) ∧
    length q = length ps ∧ length rej = length ps ∧
    ∀ i p_i, ps !! i = Some p_i → fisnan p_i = false →
      q !! i = Some (fmul p_i (of_nat N)) ∧
      rej !! i = Some (of_bool (fltb (fmul p_i (of_nat N)) alpha)).
Proof.
  intros N. rewrite multiple_testing_correction_bonferroni.
  eexists _, _. split_and!; [done|by rewrite length_scatter..|].
  intros i p_i Hp Hnan.
  assert (nan_mask ps !! i = Some true) as Hm.
  { by rewrite (nan_mask_lookup _ _ _ Hp), Hnan. }
  assert (scatter (nan_mask ps) ps
            (map (λ x, fmul x (of_nat (length (non_nan ps)))) (non_nan ps)) !! i
          = Some (fmul p_i (of_nat N))) as Hq.
  { unfold N. rewrite <-non_nan_filter.
    by apply (scatter_map_compress (λ x, fmul x _)), Hp;
      [apply length_nan_mask|]. }
  split; [done|].
  rewrite scatter_lookup_true; [|apply length_nan_mask| |done].
  2:{ rewrite length_map, length_compress; [done|].
      by rewrite length_scatter, length_nan_mask. }
  rewrite list_lookup_fmap, compress_lookup, Hq; [done| |done].
  by rewrite length_scatter, length_nan_mask.
Qed.
End PassThrough.

(** * The step-up rule *)

Section StepUp.
Implicit Types (b : list bool).

Lemma elem_of_nonzero_from i b j :
  j ∈ nonzero_from i b ↔ ∃ k, j = i + k ∧ b !! k = Some true.
Proof.
  revert i. induction b as [|x b IH]; intros i; simpl.
  - split; [by intros ?%elem_of_nil|by intros (k & _ & ?)].
  - destruct x; rewrite ?elem_of_cons, IH; split.
    + intros [->|(k & -> & Hk)]; [exists 0|exists (S k)]; split; (lia || done).
    + intros ([|k] & -> & Hk); [left; lia|right; exists k]; split; (lia || done).
    + intros (k & -> & Hk). exists (S k). split; (lia || done).
    + intros ([|k] & -> & Hk); [done|]. exists k. split; (lia || done).
Qed.

Lemma elem_of_nonzero b j : j ∈ nonzero b ↔ b !! j = Some true.
Proof.
  unfold nonzero. rewrite elem_of_nonzero_from. split.
  - by intros (k & -> & Hk).
  - intros Hj. by exists j.
Qed.

Lemma any_true b : any b = true ↔ ∃ k, b !! k = Some true.
Proof.
  unfold any. induction b as [|x b IH]; simpl.
  - split; [done|by intros [k ?]].
  - rewrite orb_true_iff, IH. split.
    + intros [->|[k Hk]]; [by exists 0|by exists (S k)].
    + intros [[|k] Hk]; simplify_eq/=; eauto.
Qed.

Lemma any_drop_true b k :
  any (drop k b) = true ↔ ∃ j, k ≤ j ∧ b !! j = Some true.
Proof.
  rewrite any_true. split.
  - intros [j Hj]. rewrite lookup_drop in Hj. exists (k + j). split; [lia|done].
  - intros (j & Hkj & Hj). exists (j - k). rewrite lookup_drop.
    by replace (k + (j - k)) with j by lia.
Qed.

(** After the step-up rule a position is rejected exactly when it or a
    later position passes the provisional test. *)
Lemma stepup_lookup b k :
  k < length b → stepup b !! k = Some (any (drop k b)).
Proof.
  intros Hk. unfold stepup. destruct (any b) eqn:Hany.
  - apply any_true in Hany as [k0 Hk0].
    assert (max_list (nonzero b) ∈ nonzero b) as Hlast.
    { apply max_list_elem_of. intros Hnil.
      apply elem_of_nonzero in Hk0. rewrite Hnil in Hk0.
      by apply elem_of_nil in Hk0. }
    assert (∀ j, b !! j = Some true → j ≤ max_list (nonzero b)) as Hmax.
    { intros j Hj. by apply max_list_elem_of_le, elem_of_nonzero. }
    apply elem_of_nonzero in Hlast. revert Hlast Hmax.
    generalize (max_list (nonzero b)). intros last Hlast Hmax.
    apply lookup_lt_Some in Hlast as Hlt. unfold slice_fill.
    destruct (decide (k < last)) as [Hkl|Hkl].
    + rewrite lookup_app_l by (rewrite length_replicate; lia).
      rewrite lookup_replicate_2 by lia. f_equal. symmetry.
      apply any_drop_true. exists last. split; [lia|done].
    + rewrite lookup_app_r by (rewrite length_replicate; lia).
      rewrite length_replicate, lookup_drop.
      replace (last + (k - last `min` length b)) with k by lia.
      destruct (lookup_lt_is_Some_2 b k Hk) as [x Hx]. rewrite Hx. f_equal.
      destruct x; symmetry.
      * apply any_drop_true. by exists k.
      * apply not_true_is_false. intros (j & Hkj & Hj)%any_drop_true.
        specialize (Hmax j Hj). assert (j = k) as -> by lia. congruence.
  - destruct (lookup_lt_is_Some_2 b k Hk) as [x Hx]. rewrite Hx. f_equal.
    assert (∀ j, b !! j = Some true → False) as Hnone.
    { intros j Hj. assert (any b = true) by (apply any_true; eauto).
      congruence. }
    destruct x; [by destruct (Hnone k)|].
    symmetry. apply not_true_is_false. intros [j [_ Hj]]%any_drop_true. eauto.
Qed.
End StepUp.

(** * Benjamini-Hochberg in sorted order *)

Section SortedView.
Context {F : Float64}.
Variable argsort : list f64 → list nat.
Variable junk_f : f64.
Variable junk_b : bool.
Hypothesis argsort_perm : argsort_permutes argsort.
Implicit Types (ps psort : list f64) (alpha : f64).

Local Abbreviation multiple_testing_correction :=
  (multiple_testing_correction argsort junk_f junk_b).

Lemma lookup_provisional_reject psort alpha k :
  provisional_reject psort alpha !! k =
    (λ x, fleb x (fmul (fdiv (of_nat (S k)) (of_nat (length psort))) alpha))
      <$> psort !! k.
Proof.
  unfold provisional_reject. rewrite lookup_zip_with.
  destruct (psort !! k) as [x|] eqn:Hx; simpl; [|done].
  apply lookup_lt_Some in Hx. by rewrite lookup_ecdf.
Qed.

Lemma lookup_corrected_raw psort k :
  corrected_raw psort !! k =
    (λ x, fdiv x (fdiv (of_nat (S k)) (of_nat (length psort)))) <$> psort !! k.
Proof.
  unfold corrected_raw. rewrite lookup_zip_with.
  destruct (psort !! k) as [x|] eqn:Hx; simpl; [|done].
  apply lookup_lt_Some in Hx. by rewrite lookup_ecdf.
Qed.

(** The outputs of the Benjamini-Hochberg method at the non-NaN places,
    read through the sort permutation, are the sorted-order arrays. *)
Lemma bh_sorted_view ps alpha :
  ∃ psort q rej,
    np_take (non_nan ps) (argsort (non_nan ps)) = Ok psort ∧
    length psort = length (non_nan ps) ∧
    (∀ k i, argsort (non_nan ps) !! k = Some i → psort !! k = non_nan ps !! i) ∧
    multiple_testing_correction ps alpha "benjamini-hochberg" = Ok (q, rej) ∧
    length q = length ps ∧ length rej = length ps ∧
    ∀ k i, argsort (non_nan ps) !! k = Some i →
      compress (nan_mask ps) rej !! i =
        of_bool <$> stepup (provisional_reject psort alpha) !! k ∧
      compress (nan_mask ps) q !! i = corrected_sorted psort !! k.
Proof.
  destruct (fdrcorrection_view argsort junk_f junk_b (non_nan ps) alpha
              argsort_perm)
    as (psort & rej_ & q_ & Htake & Hlen & Hval & Hfdr & Hlrej & Hlq & Hout).
  destruct (multiple_testing_correction_bh argsort junk_f junk_b ps alpha
              argsort_perm) as (rej_' & q_' & Hfdr' & _ & _ & Hmtc).
  rewrite Hfdr in Hfdr'. simplify_eq.
  eexists psort, _, _. split_and!; try done; try (by rewrite length_scatter).
  intros k i Hk. destruct (Hout k i Hk) as [Hr Hq].
  rewrite !compress_scatter;
    [|apply length_nan_mask|by rewrite <-length_non_nan
     |apply length_nan_mask|by rewrite length_map, <-length_non_nan].
  by rewrite list_lookup_fmap, Hr, Hq.
Qed.

Hypothesis argsort_sorted : argsort_sorts argsort.

Lemma sorted_pvalues ps psort :
  (∀ k i, argsort (non_nan ps) !! k = Some i → psort !! k = non_nan ps !! i) →
  length psort = length (non_nan ps) →
  ∀ j k x y, j ≤ k → psort !! j = Some x → psort !! k = Some y → fle x y.
Proof.
  intros Hval Hlen j k x y Hjk Hx Hy.
  assert (length (argsort (non_nan ps)) = length psort) as Hls.
  { by rewrite (argsort_perm (non_nan ps)), length_seq. }
  destruct (lookup_lt_is_Some_2 (argsort (non_nan ps)) j) as [a Ha].
  { rewrite Hls. by eapply lookup_lt_Some. }
  destruct (lookup_lt_is_Some_2 (argsort (non_nan ps)) k) as [b Hb].
  { rewrite Hls. by eapply lookup_lt_Some. }
  eapply (argsort_sorted (non_nan ps) (nan_free_non_nan ps) j k a b);
    [done..| |].
  - by rewrite <-(Hval j a Ha).
  - by rewrite <-(Hval k b Hb).
Qed.

End SortedView.

(** * The running minimum *)

Section RunningMin.
Context {F : Float64}.

Lemma accumulate_from_snoc {A} (f : A → A → A) l : ∀ acc x,
  accumulate_from f acc (l ++ [x]) =
    accumulate_from f acc l ++
      [f (default acc (last (accumulate_from f acc l))) x].
Proof.
  induction l as [|z l IH]; intros acc x; simpl; [done|].
  rewrite IH. do 3 f_equal.
  destruct (accumulate_from f (f acc z) l) as [|a l']; [done|].
  rewrite last_cons_cons.
  destruct (last_is_Some (a :: l')) as [_ [c ->]]; done.
Qed.

Lemma accumulate_snoc {A} (f : A → A → A) l x :
  accumulate f (l ++ [x]) =
    match last (accumulate f l) with
    | Some c => accumulate f l ++ [f c x]
    | None => [x]
    end.
Proof.
  destruct l as [|y l]; simpl; [done|].
  rewrite accumulate_from_snoc.
  destruct (accumulate_from f y l) as [|a l']; [done|].
  rewrite last_cons_cons.
  destruct (last_is_Some (a :: l')) as [_ [c ->]]; done.
Qed.

Lemma running_min_nil : running_min [] = [].
Proof. done. Qed.

Lemma running_min_cons (x : f64) l :
  running_min (x :: l) =
    match running_min l with
    | [] => [x]
    | c :: cs => np_minimum c x :: c :: cs
    end.
Proof.
  unfold running_min. simpl rev. rewrite accumulate_snoc.
  rewrite <-(rev_involutive (accumulate np_minimum (rev l))).
  destruct (rev (accumulate np_minimum (rev l))) as [|c cs]; simpl; [done|].
  rewrite last_snoc, !rev_app_distr. simpl. by rewrite rev_involutive.
Qed.

Context {L : Float64Laws F}.
Implicit Types x y z c : f64.

Lemma fle_notnan_l x y : fle x y → fisnan x = false.
Proof. intros H. by apply fleb_notnan in H as []. Qed.

Lemma fle_notnan_r x y : fle x y → fisnan y = false.
Proof. intros H. by apply fleb_notnan in H as []. Qed.

Lemma fle_refl x : fisnan x = false → fle x x.
Proof. intros H. by destruct (fleb_total x x H H). Qed.

Lemma fle_trans x y z : fle x y → fle y z → fle x z.
Proof. apply fleb_trans. Qed.

Lemma fltb_true x y : fltb x y = true ↔ fle x y ∧ ¬ fle y x.
Proof.
  rewrite fltb_fleb, andb_true_iff, negb_true_iff. unfold fle.
  by rewrite not_true_iff_false.
Qed.

Lemma fltb_false x y :
  fisnan x = false → fisnan y = false → fltb x y = false → fle y x.
Proof.
  intros Hx Hy Hlt. destruct (fleb y x) eqn:Hyx; [done|].
  destruct (fleb_total x y Hx Hy) as [Hxy|?]; [|congruence].
  rewrite fltb_fleb, Hxy, Hyx in Hlt. done.
Qed.

Lemma fone_notnan : fisnan fone = false.
Proof. eapply fle_notnan_r, fzero_le_fone. Qed.

Lemma fzero_notnan : fisnan fzero = false.
Proof. eapply fle_notnan_l, fzero_le_fone. Qed.

Lemma np_minimum_cases x y :
  fisnan x = false → fisnan y = false →
  (np_minimum x y = x ∧ fle x y) ∨ (np_minimum x y = y ∧ fle y x).
Proof.
  intros Hx Hy. unfold np_minimum. rewrite Hx, orb_false_r.
  destruct (fleb x y) eqn:Hxy; [by left|right].
  split; [done|]. destruct (fleb_total x y Hx Hy); [congruence|done].
Qed.

(** Each entry of the running minimum is below every raw value at its own
    or a later position, and is one of them. *)
Lemma running_min_spec raw :
  nan_free raw →
  nan_free (running_min raw) ∧
  ∀ k c, running_min raw !! k = Some c →
    (∀ j r, k ≤ j → raw !! j = Some r → fle c r) ∧
    (∃ j, k ≤ j ∧ raw !! j = Some c).
Proof.
  unfold nan_free.
  induction 1 as [|x raw Hx Hraw [IHnan IH]]; [by split|].
  rewrite running_min_cons.
  destruct (running_min raw) as [|c0 cs] eqn:Hrm.
  { pose proof (length_running_min raw) as Hl. rewrite Hrm in Hl.
    symmetry in Hl. apply nil_length_inv in Hl as ->.
    split; [by constructor|].
    intros [|k] c Hc; simplify_eq/=. split.
    - intros [|j] r _ Hr; simplify_eq/=. by apply fle_refl.
    - exists 0. by split. }
  apply Forall_cons in IHnan as Hc0. destruct Hc0 as [Hc0 _].
  destruct (IH 0 c0 eq_refl) as [Hlow0 (j0 & _ & Hj0)].
  destruct (np_minimum_cases c0 x Hc0 Hx) as [[Hmin Hle]|[Hmin Hle]];
    rewrite Hmin.
  - split; [by constructor|].
    intros [|k] c Hc; simplify_eq/=.
    + split.
      * intros [|j] r _ Hr; simplify_eq/=; [done|]. apply (Hlow0 j); [lia|done].
      * exists (S j0). split; [lia|done].
    + destruct (IH k c Hc) as [Hlow (j & Hkj & Hj)]. split.
      * intros [|j'] r Hle' Hr; simplify_eq/=; [lia|].
        apply (Hlow j'); [lia|done].
      * exists (S j). split; [lia|done].
  - split; [by constructor|].
    intros [|k] c Hc; simplify_eq/=.
    + split.
      * intros [|j] r _ Hr; simplify_eq/=; [by apply fle_refl|].
        eapply fle_trans; [done|]. apply (Hlow0 j); [lia|done].
      * exists 0. by split.
    + destruct (IH k c Hc) as [Hlow (j & Hkj & Hj)]. split.
      * intros [|j'] r Hle' Hr; simplify_eq/=; [lia|].
        apply (Hlow j'); [lia|done].
      * exists (S j). split; [lia|done].
Qed.

Lemma clamp_le_one c : fisnan c = false → fle (clamp c) fone.
Proof.
  intros Hc. unfold clamp. destruct (fltb fone c) eqn:Hlt.
  - apply fle_refl, fone_notnan.
  - by apply fltb_false; [apply fone_notnan|..].
Qed.

Lemma clamp_nonneg c : fle fzero c → fle fzero (clamp c).
Proof.
  intros Hc. unfold clamp. destruct (fltb fone c); [|done].
  apply fzero_le_fone.
Qed.

Lemma clamp_mono c c' : fle c c' → fle (clamp c) (clamp c').
Proof.
  intros Hcc. pose proof (fle_notnan_l _ _ Hcc) as Hc.
  pose proof (fle_notnan_r _ _ Hcc) as Hc'.
  unfold clamp. destruct (fltb fone c) eqn:Hlt, (fltb fone c') eqn:Hlt'.
  - apply fle_refl, fone_notnan.
  - apply fltb_true in Hlt as [H1c Hc1].
    apply fltb_false in Hlt'; [|apply fone_notnan|done].
    destruct Hc1. by eapply fle_trans.
  - by apply fltb_false; [apply fone_notnan|..].
  - done.
Qed.
End RunningMin.

(** * The q-values of Benjamini-Hochberg *)

Section QValues.
Context {F : Float64} {L : Float64Laws F}.
Variable argsort : list f64 → list nat.
Variable junk_f : f64.
Variable junk_b : bool.
Hypothesis argsort_perm : argsort_permutes argsort.
Hypothesis argsort_sorted : argsort_sorts argsort.
Implicit Types (ps psort : list f64) (alpha : f64).

Local Abbreviation multiple_testing_correction :=
  (multiple_testing_correction argsort junk_f junk_b).

Lemma unit_interval_non_nan ps :
  valid_pvalues ps → Forall unit_interval (non_nan ps).
Proof.
  unfold valid_pvalues, non_nan, nan_mask.
  induction 1 as [|x ps Hx _ IH]; simpl; [constructor|].
  destruct (fisnan x) eqn:Hnan; simpl; [done|].
  constructor; [|done]. by destruct Hx.
Qed.

Lemma length_non_nan_le ps : length (non_nan ps) ≤ length ps.
Proof. rewrite non_nan_filter. apply length_filter. Qed.

Lemma argsort_surjective (p : list f64) i :
  i < length p → ∃ k, argsort p !! k = Some i.
Proof.
  intros Hi. apply list_elem_of_lookup. rewrite (argsort_perm p).
  apply elem_of_seq. lia.
Qed.

(** The raw corrected values of p-values in [0, 1] are non-negative, hence
    not NaN. *)
Lemma corrected_raw_nonneg psort :
  Forall unit_interval psort → (Z.of_nat (length psort) < 2 ^ 63)%Z →
  Forall (fle fzero) (corrected_raw psort).
Proof.
  intros Hunit Hlen. apply Forall_lookup. intros k r Hr.
  rewrite lookup_corrected_raw in Hr.
  destruct (psort !! k) as [x|] eqn:Hx; simplify_eq/=.
  destruct (Forall_lookup_1 _ _ _ _ Hunit Hx) as [H0 H1].
  apply lookup_lt_Some in Hx.
  apply fdiv_nonneg; [done..|]. apply frac_pos; [lia..|done].
Qed.

Lemma corrected_raw_nan_free psort :
  Forall unit_interval psort → (Z.of_nat (length psort) < 2 ^ 63)%Z →
  nan_free (corrected_raw psort).
Proof.
  intros Hunit Hlen. eapply Forall_impl; [by apply corrected_raw_nonneg|].
  intros r Hr. by eapply fle_notnan_r.
Qed.

(** C2. Under the Benjamini-Hochberg method, for p-values in [0, 1] or
    NaN: the call returns a q array of the length of the input, with a
    q-value for each of the [n] non-NaN p-values; read in ascending order of
    the non-NaN p-values, the q-values are non-decreasing; each is the
    minimum, over its own and all higher ranks [j+1], of the raw value
    [p_sorted[j] / ((j+1)/n)] with any value above 1 replaced by exactly 1;
    and every q-value at a non-NaN index lies in [0, 1]. *)
Theorem bh_qvalues_monotone_and_clamped ps alpha :
  valid_pvalues ps → (Z.of_nat (length ps) < 2 ^ 63)%Z →
  let p := non_nan ps in
  let n := length p in
  ∃ psort q rej,
    np_take p (argsort p) = Ok psort ∧ length psort = n ∧
    (∀ j k x y, j ≤ k → psort !! j = Some x → psort !! k = Some y → fle x y) ∧
    multiple_testing_correction ps alpha "benjamini-hochberg" = Ok (q, rej) ∧
    length q = length ps ∧
    (∀ i x, ps !! i = Some x → fisnan x = false →
       ∃ qi, q !! i = Some qi ∧ fle fzero qi ∧ fle qi fone) ∧
    let raw j :=
      (λ x, fdiv x (fdiv (of_nat (S j)) (of_nat n))) <$> psort !! j in
    let qs k := argsort p !! k ≫= λ i, compress (nan_mask ps) q !! i in
    (∀ k, k < n → ∃ a, qs k = Some a) ∧
    (∀ k k' a b, k ≤ k' → qs k = Some a → qs k' = Some b → fle a b) ∧
    (∀ k a, qs k = Some a →
       (∀ j r, k ≤ j → raw j = Some r →
          fle a (if fltb fone r then fone else r)) ∧
       (∃ j r, k ≤ j ∧ raw j = Some r ∧
          a = if fltb fone r then fone else r)).
Proof.
  intros Hvalid Hbound p n. subst p n.
  destruct (bh_sorted_view argsort junk_f junk_b argsort_perm ps alpha)
    as (psort & q & rej & Htake & Hlen & Hval & Hmtc & Hlq & _ & Hout).
  assert (Forall unit_interval psort) as Hunit.
  { apply Forall_lookup. intros k x Hx.
    destruct (lookup_lt_is_Some_2 (argsort (non_nan ps)) k) as [i Hi].
    { rewrite (argsort_perm (non_nan ps)), length_seq, <-Hlen.
      by eapply lookup_lt_Some. }
    rewrite (Hval k i Hi) in Hx.
    eapply Forall_lookup_1; [by apply unit_interval_non_nan|done]. }
  assert (Z.of_nat (length psort) < 2 ^ 63)%Z as Hbound'.
  { rewrite Hlen. pose proof (length_non_nan_le ps). lia. }
  pose proof (corrected_raw_nonneg psort Hunit Hbound') as Hnonneg.
  destruct (running_min_spec (corrected_raw psort)
              (corrected_raw_nan_free psort Hunit Hbound')) as [_ Hmin].
  assert (∀ j, corrected_raw psort !! j =
               (λ x, fdiv x (fdiv (of_nat (S j)) (of_nat (length (non_nan ps)))))
                 <$> psort !! j) as Hraw.
  { intros j. rewrite <-Hlen. apply lookup_corrected_raw. }
  (* the q-value at sorted position [k] is the clamped running minimum *)
  assert (∀ k a,
    (argsort (non_nan ps) !! k ≫= λ i, compress (nan_mask ps) q !! i) = Some a →
    ∃ c, running_min (corrected_raw psort) !! k = Some c ∧ a = clamp c) as Hqs.
  { intros k a Hqk.
    destruct (argsort (non_nan ps) !! k) as [i|] eqn:Hi; simplify_eq/=.
    destruct (Hout k i Hi) as [_ Hq]. rewrite Hq in Hqk.
    unfold corrected_sorted in Hqk. rewrite list_lookup_fmap in Hqk.
    destruct (running_min (corrected_raw psort) !! k) as [c|]; simplify_eq/=.
    by exists c. }
  exists psort, q, rej.
  split_and!; [done|done|by eapply sorted_pvalues|done|done|..].
  - intros i x Hx Hnan.
    destruct (lookup_lt_is_Some_2 q i) as [qi Hqi].
    { rewrite Hlq. by eapply lookup_lt_Some. }
    exists qi. split; [done|].
    assert (nan_mask ps !! i = Some true) as Hm.
    { by rewrite (nan_mask_lookup _ _ _ Hx), Hnan. }
    rewrite <-(compress_lookup (nan_mask ps) q i) in Hqi;
      [|by rewrite length_nan_mask|done].
    destruct (argsort_surjective (non_nan ps)
                (count_true (take i (nan_mask ps)))) as [k Hk].
    { rewrite length_non_nan. by apply count_true_take_lt. }
    destruct (Hqs k qi) as (c & Hc & ->); [by rewrite Hk|].
    destruct (Hmin k c Hc) as [_ (j & _ & Hj)].
    pose proof (Forall_lookup_1 _ _ _ _ Hnonneg Hj) as Hc0.
    split; [by apply clamp_nonneg|]. apply clamp_le_one.
    by eapply fle_notnan_r.
  - intros raw qs. split_and!.
    + intros k Hk. unfold qs.
      destruct (lookup_lt_is_Some_2 (argsort (non_nan ps)) k) as [i Hi].
      { by rewrite (argsort_perm (non_nan ps)), length_seq. }
      rewrite Hi. simpl. destruct (Hout k i Hi) as [_ ->].
      apply lookup_lt_is_Some_2. by rewrite length_corrected_sorted, Hlen.
    + intros k k' a b Hkk Ha Hb.
      destruct (Hqs k a Ha) as (c & Hc & ->).
      destruct (Hqs k' b Hb) as (c' & Hc' & ->).
      apply clamp_mono.
      destruct (Hmin k' c' Hc') as [_ (j & Hkj & Hj)].
      destruct (Hmin k c Hc) as [Hlow _]. apply (Hlow j); [lia|done].
    + intros k a Ha. destruct (Hqs k a Ha) as (c & Hc & ->).
      destruct (Hmin k c Hc) as [Hlow (j & Hkj & Hj)]. split.
      * intros j' r Hkj' Hr. apply clamp_mono, (Hlow j'); [done|].
        unfold raw in Hr. by rewrite Hraw.
      * exists j, c. split_and!; [done| |done]. unfold raw. by rewrite <-Hraw.
Qed.
End QValues.

(** * Counting in a sorted array *)

Section Filter.
Context {A : Type} (P Q : A → Prop) `{!∀ x, Decision (P x), !∀ x, Decision (Q x)}.

Lemma filter_all (l : list A) : Forall P l → filter P l = l.
Proof.
  induction 1 as [|x l Hx _ IH]; [done|].
  by rewrite filter_cons_True, IH.
Qed.

Lemma filter_none (l : list A) : Forall (λ x, ¬ P x) l → filter P l = [].
Proof.
  induction 1 as [|x l Hx _ IH]; [done|]. by rewrite filter_cons_False.
Qed.

Lemma length_filter_mono (l : list A) :
  (∀ x, P x → Q x) → length (filter P l) ≤ length (filter Q l).
Proof.
  intros HPQ. induction l as [|x l IH]; [done|].
  destruct (decide (P x)) as [HP|HP].
  - rewrite !filter_cons_True by auto. simpl. lia.
  - rewrite (filter_cons_False P) by done.
    destruct (decide (Q x)).
    + rewrite filter_cons_True by done. simpl. lia.
    + by rewrite filter_cons_False.
Qed.

Lemma length_filter_take (l : list A) m :
  length (filter P (take m l)) ≤ length (filter P l).
Proof.
  rewrite <-(take_drop m l) at 2. rewrite filter_app, length_app. lia.
Qed.
End Filter.

Section SortedCounting.
Context {F : Float64} {L : Float64Laws F}.
Variables p psort : list f64.
Hypothesis Hperm : psort ≡ₚ p.
Hypothesis Hsorted :
  ∀ j k x y, j ≤ k → psort !! j = Some x → psort !! k = Some y → fle x y.

Lemma count_le_Permutation (l l' : list f64) w :
  l ≡ₚ l' → count_le l w = count_le l' w.
Proof. intros Hl. unfold count_le. by rewrite Hl. Qed.

Lemma count_le_length (l : list f64) w : count_le l w ≤ length l.
Proof. apply length_filter. Qed.

Lemma count_le_mono (l : list f64) v w :
  fle v w → count_le l v ≤ count_le l w.
Proof.
  intros Hvw. apply length_filter_mono. intros x Hx. by eapply fle_trans.
Qed.

(** The entry at sorted position [k] has at least [k+1] entries up to it. *)
Lemma count_le_sorted_position k v :
  psort !! k = Some v → S k ≤ count_le p v.
Proof.
  intros Hk. rewrite <-(count_le_Permutation _ _ _ Hperm). unfold count_le.
  etrans; [|apply (length_filter_take _ _ (S k))].
  rewrite filter_all.
  - rewrite length_take. apply lookup_lt_Some in Hk. lia.
  - apply Forall_lookup. intros j x Hj.
    apply lookup_take_Some in Hj as [Hj Hjk].
    apply (Hsorted j k); [lia|done..].
Qed.

(** The last entry tied with [w] sits at position [count_le p w - 1]. *)
Lemma count_le_last_tie w :
  w ∈ p →
  ∃ y, psort !! (count_le p w - 1) = Some y ∧ fle y w ∧ fle w y ∧
       1 ≤ count_le p w.
Proof.
  intros Hw. rewrite <-Hperm in Hw.
  apply list_elem_of_lookup in Hw as [t Ht].
  pose proof (count_le_sorted_position t w Ht) as Hm.
  pose proof (count_le_length p w) as Hn.
  rewrite <-(Permutation_length Hperm) in Hn.
  destruct (lookup_lt_is_Some_2 psort (count_le p w - 1)) as [y Hy]; [lia|].
  exists y. split_and!; [done| |apply (Hsorted t (count_le p w - 1)); [lia|done..]|lia].
  destruct (fleb y w) eqn:Hyw; [done|exfalso].
  assert (count_le psort w ≤ count_le p w - 1); [|
    rewrite (count_le_Permutation _ _ _ Hperm) in *; lia].
  unfold count_le at 1.
  rewrite <-(take_drop (count_le p w - 1) psort), filter_app, length_app.
  rewrite (filter_none _ (drop _ _)).
  - pose proof (length_filter (λ y, fleb y w = true)
                  (take (count_le p w - 1) psort)) as Hlf.
    rewrite length_take in Hlf. simpl. lia.
  - apply Forall_lookup. intros j x Hj Hxw. rewrite lookup_drop in Hj.
    assert (fle y w); [|unfold fle in *; congruence].
    eapply fle_trans; [|exact Hxw].
    apply (Hsorted (count_le p w - 1) (count_le p w - 1 + j)); [lia|done..].
Qed.
End SortedCounting.

(** * The outputs of Benjamini-Hochberg depend on values only *)

Section Ties.
Context {F : Float64} {L : Float64Laws F}.
Variables p psort : list f64.
Hypothesis Hperm : psort ≡ₚ p.
Hypothesis Hsorted :
  ∀ j k x y, j ≤ k → psort !! j = Some x → psort !! k = Some y → fle x y.
Hypothesis Hunit : Forall unit_interval p.
Hypothesis Hbound : (Z.of_nat (length p) < 2 ^ 63)%Z.

Local Abbreviation e i := (fdiv (of_nat i) (of_nat (length p))).

Lemma length_psort : length psort = length p.
Proof. by rewrite Hperm. Qed.

Lemma unit_psort : Forall unit_interval psort.
Proof. by rewrite Hperm. Qed.

Lemma lookup_raw_sorted j x :
  psort !! j = Some x → corrected_raw psort !! j = Some (fdiv x (e (S j))).
Proof.
  intros Hx. by rewrite lookup_corrected_raw, Hx, length_psort.
Qed.

Lemma lookup_test_sorted alpha j x :
  psort !! j = Some x →
  provisional_reject psort alpha !! j = Some (fleb x (fmul (e (S j)) alpha)).
Proof.
  intros Hx. by rewrite lookup_provisional_reject, Hx, length_psort.
Qed.

Lemma running_min_tail_min k v c :
  psort !! k = Some v →
  running_min (corrected_raw psort) !! k = Some c →
  tail_min p v c.
Proof.
  intros Hv Hc.
  destruct (running_min_spec (corrected_raw psort)) as [_ Hmin].
  { apply corrected_raw_nan_free; [apply unit_psort|].
    by rewrite length_psort. }
  destruct (Hmin k c Hc) as [Hlow (j & Hkj & Hj)]. split.
  - intros w Hw Hvw.
    destruct (count_le_last_tie p psort Hperm Hsorted w Hw)
      as (y & Hy & Hyw & Hwy & Hm).
    pose proof (count_le_sorted_position p psort Hperm Hsorted k v Hv) as Hk.
    pose proof (count_le_mono p v w Hvw) as Hmono.
    pose proof (count_le_length p w) as Hn.
    destruct (Forall_lookup_1 _ _ _ _ unit_psort Hy) as [Hy0 Hy1].
    destruct (proj1 (Forall_forall _ _) Hunit w Hw) as [Hw0 Hw1].
    eapply fle_trans.
    + apply (Hlow (count_le p w - 1)); [lia|]. by apply lookup_raw_sorted.
    + replace (S (count_le p w - 1)) with (count_le p w) by lia.
      apply fdiv_mono_num; [done..|]. apply frac_pos; [lia..|done].
  - apply lookup_lt_Some in Hj as Hjlt. rewrite length_corrected_raw in Hjlt.
    destruct (lookup_lt_is_Some_2 psort j Hjlt) as [x Hx].
    rewrite (lookup_raw_sorted j x Hx) in Hj. simplify_eq.
    pose proof (count_le_sorted_position p psort Hperm Hsorted j x Hx) as Hm.
    pose proof (count_le_length p x) as Hn.
    destruct (Forall_lookup_1 _ _ _ _ unit_psort Hx) as [Hx0 Hx1].
    exists x. split_and!.
    + rewrite <-Hperm. by eapply list_elem_of_lookup_2.
    + by apply (Hsorted k j).
    + apply fdiv_anti_den; [done..| |].
      * apply frac_pos; [lia..|done].
      * apply frac_mono; [lia..|done].
Qed.

Lemma stepup_tail_passes alpha k v :
  fle fzero alpha →
  psort !! k = Some v →
  any (drop k (provisional_reject psort alpha)) = true ↔ tail_passes p alpha v.
Proof.
  intros Halpha Hv. rewrite any_drop_true. split.
  - intros (j & Hkj & Hj).
    apply lookup_lt_Some in Hj as Hjlt.
    rewrite length_provisional_reject in Hjlt.
    destruct (lookup_lt_is_Some_2 psort j Hjlt) as [x Hx].
    rewrite (lookup_test_sorted alpha j x Hx) in Hj. simplify_eq.
    pose proof (count_le_sorted_position p psort Hperm Hsorted j x Hx) as Hm.
    pose proof (count_le_length p x) as Hn.
    exists x. split_and!.
    + rewrite <-Hperm. by eapply list_elem_of_lookup_2.
    + by apply (Hsorted k j).
    + eapply fle_trans; [done|]. apply fmul_mono; [| | |done].
      * apply frac_pos; [lia..|done].
      * apply frac_mono; [lia..|done].
      * apply frac_le_one; [lia..|done].
  - intros (w & Hw & Hvw & Htest).
    destruct (count_le_last_tie p psort Hperm Hsorted w Hw)
      as (y & Hy & Hyw & Hwy & Hm).
    pose proof (count_le_sorted_position p psort Hperm Hsorted k v Hv) as Hk.
    pose proof (count_le_mono p v w Hvw) as Hmono.
    exists (count_le p w - 1). split; [lia|].
    rewrite (lookup_test_sorted alpha _ y Hy). f_equal.
    replace (S (count_le p w - 1)) with (count_le p w) by lia.
    by eapply fle_trans.
Qed.
End Ties.

Section ByValueFacts.
Context {F : Float64} {L : Float64Laws F}.

Lemma tie_raw_Permutation (p p' : list f64) w :
  p ≡ₚ p' → tie_raw p w = tie_raw p' w.
Proof.
  intros Hp. unfold tie_raw.
  by rewrite (count_le_Permutation _ _ _ Hp), (Permutation_length Hp).
Qed.

Lemma tail_min_Permutation (p p' : list f64) v c :
  p ≡ₚ p' → tail_min p v c → tail_min p' v c.
Proof.
  intros Hp [Hlow (w & Hw & Hvw & Hwc)]. split.
  - intros w' Hw' Hvw'. rewrite <-(tie_raw_Permutation _ _ _ Hp).
    apply Hlow; [by rewrite Hp|done].
  - exists w. rewrite <-(tie_raw_Permutation _ _ _ Hp).
    split_and!; [by rewrite <-Hp|done..].
Qed.

Lemma tail_min_unique (p : list f64) v c c' :
  tail_min p v c → tail_min p v c' → fle c c' ∧ fle c' c.
Proof.
  intros [Hlow (w & Hw & Hvw & Hwc)] [Hlow' (w' & Hw' & Hvw' & Hwc')]. split.
  - exact (fle_trans _ _ _ (Hlow w' Hw' Hvw') Hwc').
  - exact (fle_trans _ _ _ (Hlow' w Hw Hvw) Hwc).
Qed.

Lemma tail_passes_Permutation (p p' : list f64) alpha v :
  p ≡ₚ p' → tail_passes p alpha v → tail_passes p' alpha v.
Proof.
  intros Hp (w & Hw & Hvw & Htest). exists w.
  split_and!; [by rewrite <-Hp|done|].
  unfold tie_test in *.
  by rewrite <-(count_le_Permutation _ _ _ Hp), <-(Permutation_length Hp).
Qed.
End ByValueFacts.

Section OrderInvariance.
Context {F : Float64} {L : Float64Laws F}.
Variable argsort : list f64 → list nat.
Variable junk_f : f64.
Variable junk_b : bool.
Hypothesis argsort_perm : argsort_permutes argsort.
Hypothesis argsort_sorted : argsort_sorts argsort.
Implicit Types (ps psort : list f64) (alpha : f64).

Local Abbreviation multiple_testing_correction :=
  (multiple_testing_correction argsort junk_f junk_b).

(** Reading an array through a permutation of its indices permutes it. *)
Lemma lookup_through_Permutation {A} (a r : list A) (inds : list nat) :
  inds ≡ₚ seq 0 (length a) → length r = length a →
  (∀ k i, inds !! k = Some i → r !! k = a !! i) →
  r ≡ₚ a.
Proof.
  intros Hinds Hlen Hlook. apply Permutation_inj. split; [done|].
  assert (length inds = length a) as Hli by (by rewrite Hinds, length_seq).
  assert (NoDup inds) as Hnd by (rewrite Hinds; apply NoDup_seq).
  assert (∀ k i, inds !! k = Some i → i < length a) as Hrange.
  { intros k i Hk. apply list_elem_of_lookup_2 in Hk. rewrite Hinds in Hk.
    apply elem_of_seq in Hk. lia. }
  exists (λ k, default k (inds !! k)). split.
  - intros k1 k2 Heq.
    destruct (inds !! k1) as [i1|] eqn:H1, (inds !! k2) as [i2|] eqn:H2;
      simplify_eq/=.
    + by eapply NoDup_lookup.
    + apply Hrange in H1. apply lookup_ge_None in H2. lia.
    + apply Hrange in H2. apply lookup_ge_None in H1. lia.
    + done.
  - intros k. destruct (inds !! k) as [i|] eqn:Hk; simpl; [by eapply Hlook|].
    apply lookup_ge_None in Hk.
    rewrite (lookup_ge_None_2 r), (lookup_ge_None_2 a); [done|lia..].
Qed.

Lemma np_take_Permutation {A} (a r : list A) (inds : list nat) :
  inds ≡ₚ seq 0 (length a) → np_take a inds = Ok r → r ≡ₚ a.
Proof.
  intros Hinds Htake.
  destruct (np_take_ok a inds) as (r' & Hr' & Hlen & Hlook).
  { apply Forall_forall. intros i Hi. rewrite Hinds in Hi.
    apply elem_of_seq in Hi. lia. }
  rewrite Htake in Hr'. simplify_eq.
  apply (lookup_through_Permutation a r' inds); [done| |done].
  by rewrite Hlen, Hinds, length_seq.
Qed.

(** The Benjamini-Hochberg outputs at an index, from the value there and
    the non-NaN values of the array alone. *)
Lemma bh_by_value ps alpha :
  valid_pvalues ps → (Z.of_nat (length ps) < 2 ^ 63)%Z → fle fzero alpha →
  ∃ q rej,
    multiple_testing_correction ps alpha "benjamini-hochberg" = Ok (q, rej) ∧
    (∀ i x, ps !! i = Some x → fisnan x = true →
       q !! i = Some x ∧ rej !! i = Some x) ∧
    (∀ i x, ps !! i = Some x → fisnan x = false →
       ∃ c b, tail_min (non_nan ps) x c ∧ q !! i = Some (clamp c) ∧
              rej !! i = Some (of_bool b) ∧
              (b = true ↔ tail_passes (non_nan ps) alpha x)).
Proof.
  intros Hvalid Hbound Halpha.
  destruct (bh_sorted_view argsort junk_f junk_b argsort_perm ps alpha)
    as (psort & q & rej & Htake & Hlen & Hval & Hmtc & Hlq & Hlrej & Hout).
  destruct (multiple_testing_correction_aligned argsort junk_f junk_b
              argsort_perm ps alpha "benjamini-hochberg")
    as (q' & rej' & Hmtc' & _ & _ & Hnan & _); [by right|].
  rewrite Hmtc in Hmtc'. simplify_eq.
  exists q', rej'. split_and!; [done..|].
  intros i x Hx Hxnan.
  assert (psort ≡ₚ non_nan ps) as Hperm.
  { by apply (lookup_through_Permutation _ _ (argsort (non_nan ps))). }
  assert (∀ j k x y, j ≤ k → psort !! j = Some x → psort !! k = Some y →
                     fle x y) as Hsorted.
  { by eapply sorted_pvalues. }
  pose proof (unit_interval_non_nan ps Hvalid) as Hunit.
  assert (Z.of_nat (length (non_nan ps)) < 2 ^ 63)%Z as Hbound'.
  { pose proof (length_non_nan_le ps). lia. }
  assert (nan_mask ps !! i = Some true) as Hm.
  { by rewrite (nan_mask_lookup _ _ _ Hx), Hxnan. }
  set (r := count_true (take i (nan_mask ps))).
  assert (non_nan ps !! r = Some x) as Hr.
  { unfold non_nan, r. rewrite compress_lookup; [done|apply length_nan_mask|done]. }
  destruct (argsort_surjective argsort argsort_perm (non_nan ps) r) as [k Hk].
  { by eapply lookup_lt_Some. }
  assert (psort !! k = Some x) as Hv by (by rewrite (Hval k r Hk)).
  destruct (Hout k r Hk) as [Hrej Hq].
  unfold r in Hrej, Hq.
  rewrite compress_lookup in Hrej; [|by rewrite length_nan_mask, Hlrej|done].
  rewrite compress_lookup in Hq; [|by rewrite length_nan_mask, Hlq|done].
  assert (k < length psort) as Hklt by (by eapply lookup_lt_Some).
  rewrite stepup_lookup in Hrej by (by rewrite length_provisional_reject).
  destruct (lookup_lt_is_Some_2 (running_min (corrected_raw psort)) k) as [c Hc].
  { by rewrite length_running_min, length_corrected_raw. }
  unfold corrected_sorted in Hq. rewrite list_lookup_fmap, Hc in Hq.
  exists c, (any (drop k (provisional_reject psort alpha))).
  split_and!; [|done..|].
  - by apply (running_min_tail_min (non_nan ps) psort Hperm Hsorted Hunit
                Hbound' k).
  - by apply (stepup_tail_passes (non_nan ps) psort Hperm Hsorted Hbound').
Qed.

(** C4. Benjamini-Hochberg correction does not depend on the order of the
    array: correcting [ps] and an array [ps'] that lists the entries of
    [ps] in another order ([ps'[j] = ps[sigma[j]]]) gives, entry for entry,
    the same reject flag and equal q-values (the same value, or values the
    float comparison finds equal), ties included. *)
Theorem bh_order_invariant ps sigma ps' alpha :
  valid_pvalues ps → (Z.of_nat (length ps) < 2 ^ 63)%Z → fle fzero alpha →
  sigma ≡ₚ seq 0 (length ps) → np_take ps sigma = Ok ps' →
  ∃ q rej q' rej',
    multiple_testing_correction ps alpha "benjamini-hochberg" = Ok (q, rej) ∧
    multiple_testing_correction ps' alpha "benjamini-hochberg"
      = Ok (q', rej') ∧
    ∀ j i, sigma !! j = Some i →
      rej' !! j = rej !! i ∧
      ∃ a b, q' !! j = Some a ∧ q !! i = Some b ∧
             (a = b ∨ (fle a b ∧ fle b a)).
Proof.
  intros Hvalid Hbound Halpha Hsigma Htake.
  pose proof (np_take_Permutation ps ps' sigma Hsigma Htake) as Hperm.
  assert (non_nan ps' ≡ₚ non_nan ps) as Hperm'.
  { by rewrite !non_nan_filter, Hperm. }
  destruct (bh_by_value ps alpha Hvalid Hbound Halpha)
    as (q & rej & Hmtc & Hnan & Hval).
  destruct (bh_by_value ps' alpha) as (q' & rej' & Hmtc' & Hnan' & Hval').
  { unfold valid_pvalues. by rewrite Hperm. }
  { by rewrite Hperm. }
  { done. }
  exists q, rej, q', rej'. split_and!; [done..|].
  intros j i Hj.
  destruct (np_take_ok ps sigma) as (r & Hr & _ & Hlook).
  { apply Forall_forall. intros i' Hi'. rewrite Hsigma in Hi'.
    apply elem_of_seq in Hi'. lia. }
  rewrite Htake in Hr. simplify_eq. specialize (Hlook j i Hj).
  destruct (lookup_lt_is_Some_2 ps i) as [x Hx].
  { apply list_elem_of_lookup_2 in Hj. rewrite Hsigma in Hj.
    apply elem_of_seq in Hj. lia. }
  rewrite Hx in Hlook.
  destruct (fisnan x) eqn:Hxnan.
  - destruct (Hnan i x Hx Hxnan) as [Hq Hrej].
    destruct (Hnan' j x Hlook Hxnan) as [Hq' Hrej'].
    split; [congruence|]. exists x, x. auto.
  - destruct (Hval i x Hx Hxnan) as (c & b & Hc & Hq & Hrej & Hb).
    destruct (Hval' j x Hlook Hxnan) as (c' & b' & Hc' & Hq' & Hrej' & Hb').
    apply (tail_min_Permutation _ _ _ _ Hperm') in Hc'.
    destruct (tail_min_unique _ _ _ _ Hc Hc') as [Hcc Hcc'].
    split.
    + rewrite Hrej, Hrej'. do 2 f_equal.
      apply eq_true_iff_eq. rewrite Hb, Hb'. split.
      * by apply tail_passes_Permutation.
      * by apply tail_passes_Permutation.
    + exists (clamp c'), (clamp c). split_and!; [done..|right].
      split; by apply clamp_mono.
Qed.
End OrderInvariance.

(** * The exact instance satisfies the laws *)

Section ExactLaws.
Local Open Scope Q_scope.

Lemma Qle_bool_false x y : Qle_bool x y = false ↔ y < x.
Proof.
  rewrite <-not_true_iff_false, Qle_bool_iff. split.
  - apply Qnot_le_lt.
  - apply Qlt_not_le.
Qed.

Lemma Qeq_bool_false_pos x : 0 < x → Qeq_bool x 0 = false.
Proof.
  intros Hx. apply not_true_iff_false. intros Heq%Qeq_bool_iff.
  rewrite Heq in Hx. by apply Qlt_irrefl in Hx.
Qed.

Lemma Qsign_neg_pos x : 0 < x → Qsign_neg x = false.
Proof.
  intros Hx. unfold Qsign_neg.
  by rewrite (proj2 (Qle_bool_false x 0) Hx).
Qed.

Lemma Qdiv_nonneg p e : 0 <= p → 0 < e → 0 <= p / e.
Proof.
  intros Hp He. apply Qle_shift_div_l; [done|]. by rewrite Qmult_0_l.
Qed.

Lemma Qdiv_mono_num p p' e : p <= p' → 0 < e → p / e <= p' / e.
Proof.
  intros Hp He. apply Qmult_le_compat_r; [done|].
  apply Qinv_le_0_compat. by apply Qlt_le_weak.
Qed.

Lemma Qdiv_anti_den p e e' : 0 <= p → 0 < e → e <= e' → p / e' <= p / e.
Proof.
  intros Hp He Hee.
  assert (0 < e') as He' by (by eapply Qlt_le_trans).
  apply Qle_shift_div_r; [done|].
  assert (p == p / e * e) as Heq.
  { field. intros H0. rewrite H0 in He. by apply Qlt_irrefl in He. }
  rewrite Heq at 1.
  rewrite !(Qmult_comm (p / e)). apply Qmult_le_compat_r; [done|].
  by apply Qdiv_nonneg.
Qed.

Lemma inject_nat_pos i : (1 ≤ i)%nat → 0 < inject_Z (Z.of_nat i).
Proof. intros Hi. change 0 with (inject_Z 0). rewrite <-Zlt_Qlt. lia. Qed.

Lemma inject_nat_le i j :
  (i ≤ j)%nat → inject_Z (Z.of_nat i) <= inject_Z (Z.of_nat j).
Proof. intros Hij. rewrite <-Zle_Qle. lia. Qed.

Lemma xQ_ltb_zero_fin q : xQ_ltb (XFin 0) (XFin q) = true ↔ 0 < q.
Proof.
  unfold xQ_ltb. simpl. rewrite andb_true_iff, negb_true_iff.
  rewrite Qle_bool_iff, Qle_bool_false. split; [by intros []|].
  intros Hq. split; [by apply Qlt_le_weak|done].
Qed.

Lemma xQ_frac i n :
  (1 ≤ n)%nat →
  xQ_div (XFin (inject_Z (Z.of_nat i))) (XFin (inject_Z (Z.of_nat n))) =
    XFin (inject_Z (Z.of_nat i) / inject_Z (Z.of_nat n)).
Proof.
  intros Hn. simpl. by rewrite Qeq_bool_false_pos by (by apply inject_nat_pos).
Qed.

Lemma xQ_unit_fin (x : xQ) :
  xQ_leb (XFin 0) x = true → xQ_leb x (XFin 1) = true →
  ∃ q, x = XFin q ∧ 0 <= q ∧ q <= 1.
Proof.
  destruct x as [|[]|q]; simpl; try done.
  rewrite !Qle_bool_iff. eauto.
Qed.

Lemma xQ_pos_cases (x : xQ) :
  xQ_ltb (XFin 0) x = true → x = XInf false ∨ ∃ q, x = XFin q ∧ 0 < q.
Proof.
  destruct x as [|[]|q]; try done; [by left|].
  intros Hq%xQ_ltb_zero_fin. right. eauto.
Qed.

Lemma xQ_pos_fin (x y : xQ) :
  xQ_ltb (XFin 0) x = true → xQ_leb x y = true → xQ_leb y (XFin 1) = true →
  ∃ p q, x = XFin p ∧ y = XFin q ∧ 0 < p ∧ p <= q.
Proof.
  intros Hx Hxy Hy.
  destruct (xQ_pos_cases x Hx) as [->|(p & -> & Hp)].
  - by destruct y as [|[]|q].
  - destruct y as [|[]|q]; try done.
    simpl in Hxy. apply Qle_bool_iff in Hxy. by exists p, q.
Qed.

Lemma xQ_leb_notnan x y :
  xQ_leb x y = true → xQ_isnan x = false ∧ xQ_isnan y = false.
Proof. destruct x as [|[]|p], y as [|[]|q]; simpl; done. Qed.

Lemma xQ_leb_total x y :
  xQ_isnan x = false → xQ_isnan y = false →
  xQ_leb x y = true ∨ xQ_leb y x = true.
Proof.
  destruct x as [|[]|p], y as [|[]|q]; simpl; try done; auto.
  intros _ _. rewrite !Qle_bool_iff.
  destruct (Qlt_le_dec p q); [left; by apply Qlt_le_weak|by right].
Qed.

Lemma xQ_leb_trans x y z :
  xQ_leb x y = true → xQ_leb y z = true → xQ_leb x z = true.
Proof.
  destruct x as [|[]|p], y as [|[]|q], z as [|[]|r]; simpl; try done.
  rewrite !Qle_bool_iff. apply Qle_trans.
Qed.

Lemma xQ_frac_pos i n :
  (1 ≤ i)%nat → (i ≤ n)%nat →
  xQ_ltb (XFin 0)
    (xQ_div (XFin (inject_Z (Z.of_nat i))) (XFin (inject_Z (Z.of_nat n))))
  = true.
Proof.
  intros Hi Hin. rewrite xQ_frac by lia. apply xQ_ltb_zero_fin.
  apply Qlt_shift_div_l; [apply inject_nat_pos; lia|].
  rewrite Qmult_0_l. by apply inject_nat_pos.
Qed.

Lemma xQ_frac_le_one i n :
  (1 ≤ i)%nat → (i ≤ n)%nat →
  xQ_leb
    (xQ_div (XFin (inject_Z (Z.of_nat i))) (XFin (inject_Z (Z.of_nat n))))
    (XFin 1) = true.
Proof.
  intros Hi Hin. rewrite xQ_frac by lia. simpl. apply Qle_bool_iff.
  apply Qle_shift_div_r; [apply inject_nat_pos; lia|].
  rewrite Qmult_1_l. by apply inject_nat_le.
Qed.

Lemma xQ_frac_mono i j n :
  (1 ≤ i)%nat → (i ≤ j)%nat → (j ≤ n)%nat →
  xQ_leb
    (xQ_div (XFin (inject_Z (Z.of_nat i))) (XFin (inject_Z (Z.of_nat n))))
    (xQ_div (XFin (inject_Z (Z.of_nat j))) (XFin (inject_Z (Z.of_nat n))))
  = true.
Proof.
  intros Hi Hij Hjn. rewrite !xQ_frac by lia. simpl. apply Qle_bool_iff.
  apply Qdiv_mono_num; [by apply inject_nat_le|apply inject_nat_pos; lia].
Qed.

Lemma xQ_div_nonneg p e :
  xQ_leb (XFin 0) p = true → xQ_leb p (XFin 1) = true →
  xQ_ltb (XFin 0) e = true →
  xQ_leb (XFin 0) (xQ_div p e) = true.
Proof.
  intros Hp0 Hp1 He.
  destruct (xQ_unit_fin p Hp0 Hp1) as (p' & -> & Hp' & _).
  destruct (xQ_pos_cases e He) as [->|(e' & -> & He')]; [done|].
  simpl. rewrite Qeq_bool_false_pos by done. simpl.
  apply Qle_bool_iff. by apply Qdiv_nonneg.
Qed.

Lemma xQ_div_mono_num p p' e :
  xQ_leb (XFin 0) p = true → xQ_leb p p' = true →
  xQ_leb p' (XFin 1) = true → xQ_ltb (XFin 0) e = true →
  xQ_leb (xQ_div p e) (xQ_div p' e) = true.
Proof.
  intros Hp0 Hpp Hp1 He.
  destruct (xQ_unit_fin p' (xQ_leb_trans _ _ _ Hp0 Hpp) Hp1)
    as (q' & -> & Hq0 & Hq1).
  destruct (xQ_unit_fin p Hp0 (xQ_leb_trans _ _ _ Hpp Hp1))
    as (q & -> & _ & _).
  simpl in Hpp. apply Qle_bool_iff in Hpp.
  destruct (xQ_pos_cases e He) as [->|(e' & -> & He')]; [done|].
  simpl. rewrite Qeq_bool_false_pos by done. simpl.
  apply Qle_bool_iff. by apply Qdiv_mono_num.
Qed.

Lemma xQ_div_anti_den p e e' :
  xQ_leb (XFin 0) p = true → xQ_leb p (XFin 1) = true →
  xQ_ltb (XFin 0) e = true → xQ_leb e e' = true →
  xQ_leb (xQ_div p e') (xQ_div p e) = true.
Proof.
  intros Hp0 Hp1 He Hee.
  destruct (xQ_unit_fin p Hp0 Hp1) as (q & -> & Hq0 & _).
  destruct (xQ_pos_cases e He) as [->|(a & -> & Ha)].
  - by destruct e' as [|[]|b].
  - destruct e' as [|[]|b]; try done.
    + simpl. rewrite Qeq_bool_false_pos by done. simpl.
      apply Qle_bool_iff. by apply Qdiv_nonneg.
    + simpl in Hee. apply Qle_bool_iff in Hee.
      assert (0 < b) as Hb by (by eapply Qlt_le_trans).
      simpl. rewrite !Qeq_bool_false_pos by done. simpl.
      apply Qle_bool_iff. by apply Qdiv_anti_den.
Qed.

Lemma xQ_mul_mono e e' a :
  xQ_ltb (XFin 0) e = true → xQ_leb e e' = true →
  xQ_leb e' (XFin 1) = true → xQ_leb (XFin 0) a = true →
  xQ_leb (xQ_mul e a) (xQ_mul e' a) = true.
Proof.
  intros He Hee He1 Ha.
  destruct (xQ_pos_fin e e' He Hee He1) as (p & q & -> & -> & Hp & Hpq).
  assert (0 < q) as Hq by (by eapply Qlt_le_trans).
  destruct a as [|[]|a]; try done.
  - simpl. by rewrite !Qeq_bool_false_pos, !Qsign_neg_pos by done.
  - simpl in Ha. apply Qle_bool_iff in Ha. simpl. apply Qle_bool_iff.
    by apply Qmult_le_compat_r.
Qed.

#[export] Instance exactQ_laws : Float64Laws exactQ.
Proof.
  split.
  - apply xQ_leb_notnan.
  - apply xQ_leb_total.
  - apply xQ_leb_trans.
  - done.
  - done.
  - intros i n Hi Hin _. by apply xQ_frac_pos.
  - intros i n Hi Hin _. by apply xQ_frac_le_one.
  - intros i j n Hi Hij Hjn _. by apply xQ_frac_mono.
  - apply xQ_div_nonneg.
  - apply xQ_div_mono_num.
  - apply xQ_div_anti_den.
  - apply xQ_mul_mono.
Qed.
End ExactLaws.

(** * The insertion argsort sorts *)

Section InsertionArgsortSorts.
Context {F : Float64} {L : Float64Laws F}.
Variable l : list f64.
Hypothesis Hnan : nan_free l.

Lemma in_order_intro a b x y :
  l !! a = Some x → l !! b = Some y → fle x y → in_order l a b.
Proof. intros. by exists x, y. Qed.

Lemma insert_index_lt i s :
  i < length l → Forall (λ a, a < length l) s →
  Forall (λ a, a < length l) (insert_index l i s).
Proof. intros Hi Hs. rewrite insert_index_Permutation. by constructor. Qed.

Lemma insert_index_sorted i s :
  i < length l → Forall (λ a, a < length l) s →
  StronglySorted (in_order l) s → StronglySorted (in_order l) (insert_index l i s).
Proof.
  intros Hi Hlt Hs. destruct (lookup_lt_is_Some_2 l i Hi) as [x Hx].
  pose proof (Forall_lookup_1 _ _ _ _ Hnan Hx) as Hxnan.
  induction Hs as [|j s Hs IH Hj]; simpl.
  { repeat constructor. }
  apply Forall_cons in Hlt as [Hjlt Hlt].
  destruct (lookup_lt_is_Some_2 l j Hjlt) as [y Hy].
  pose proof (Forall_lookup_1 _ _ _ _ Hnan Hy) as Hynan.
  rewrite Hx, Hy. destruct (fltb y x) eqn:Hyx.
  - apply fltb_true in Hyx as [Hyx _].
    constructor; [by apply IH|].
    rewrite insert_index_Permutation. constructor; [|done].
    by eapply in_order_intro.
  - apply fltb_false in Hyx; [|done..].
    constructor; [by constructor|].
    constructor; [by eapply in_order_intro|].
    eapply Forall_impl; [exact Hj|].
    intros b (y' & z & Hy' & Hz & Hyz). simplify_eq.
    eapply in_order_intro; [done..|]. by eapply fle_trans.
Qed.

Lemma insertion_argsort_sorted_from (inds : list nat) :
  Forall (λ a, a < length l) inds →
  Forall (λ a, a < length l) (foldr (λ i s, insert_index l i s) [] inds) ∧
  StronglySorted (in_order l) (foldr (λ i s, insert_index l i s) [] inds).
Proof.
  induction 1 as [|i inds Hi _ [IHlt IHs]]; simpl.
  - split; constructor.
  - split; [by apply insert_index_lt|by apply insert_index_sorted].
Qed.

End InsertionArgsortSorts.

Lemma insertion_argsort_sorts {F : Float64} {L : Float64Laws F} :
  argsort_sorts insertion_argsort.
Proof.
  intros l Hnan j k a b x y Hjk Ha Hb Hx Hy.
  destruct (insertion_argsort_sorted_from l Hnan (seq 0 (length l)))
    as [_ Hs].
  { apply Forall_forall. intros i Hi%elem_of_seq. lia. }
  destruct (decide (j = k)) as [->|Hne].
  - rewrite Ha in Hb. injection Hb as <-. rewrite Hx in Hy. injection Hy as <-.
    apply fle_refl. exact (Forall_lookup_1 _ _ _ _ Hnan Hx).
  - destruct (StronglySorted_lookup_lt _ _ j k a b Hs)
      as (x' & y' & Hx' & Hy' & Hxy); [lia|done..|].
    by simplify_eq.
Qed.

(** * calc_pvalues *)

Section StringOrder.
Lemma ascii_compare_lt_trans a b c :
  Ascii.compare a b = Lt → Ascii.compare b c = Lt → Ascii.compare a c = Lt.
Proof.
  unfold Ascii.compare. rewrite !N.compare_lt_iff. apply N.lt_trans.
Qed.

Lemma str_le_trans a : ∀ b c, str_le a b → str_le b c → str_le a c.
Proof.
  unfold str_le, String.leb.
  induction a as [|x a IH]; intros [|y b] [|z c]; simpl; try done.
  destruct (Ascii.compare x y) eqn:Hxy; [| |done].
  - apply Ascii.compare_eq_iff in Hxy as ->.
    destruct (Ascii.compare y z); [apply IH|done..].
  - destruct (Ascii.compare y z) eqn:Hyz; [| |done].
    + apply Ascii.compare_eq_iff in Hyz as ->. by rewrite Hxy.
    + by rewrite (ascii_compare_lt_trans x y z).
Qed.

#[export] Instance str_le_transitive : Transitive str_le.
Proof. intros a b c. apply str_le_trans. Qed.

#[export] Instance str_le_total : Total str_le.
Proof. intros a b. apply String.leb_total. Qed.

#[export] Instance str_le_antisymm : AntiSymm (=) str_le.
Proof. intros a b. apply String.leb_antisym. Qed.

Lemma sorted_Permutation l : sorted l ≡ₚ l.
Proof. apply merge_sort_Permutation. Qed.

Lemma sorted_StronglySorted l : StronglySorted str_le (sorted l).
Proof. apply StronglySorted_merge_sort; apply _. Qed.

(** [sorted] depends on the elements only, not on their order. *)
Lemma sorted_unique l l' : l ≡ₚ l' → sorted l = sorted l'.
Proof.
  intros Hl. apply (StronglySorted_unique str_le);
    [apply sorted_StronglySorted..|].
  by rewrite !sorted_Permutation.
Qed.
End StringOrder.

Section Dict.
Context {V : Type}.
Implicit Types (d : dict V) (s : string) (v : V).

Lemma elem_of_keys d s v : (s, v) ∈ d → s ∈ keys d.
Proof. intros Hsv. unfold keys. apply (list_elem_of_fmap_2 fst _ _ Hsv). Qed.

Lemma keys_elem_of d s : s ∈ keys d → ∃ v, (s, v) ∈ d.
Proof.
  intros ([s' v] & -> & Hsv)%list_elem_of_fmap. by exists v.
Qed.

Lemma get_elem_of d s v : NoDup (keys d) → (s, v) ∈ d → get d s = Some v.
Proof.
  induction d as [|[k w] d IH]; intros Hnd Hsv; [by apply elem_of_nil in Hsv|].
  simpl in Hnd. apply NoDup_cons in Hnd as [Hk Hnd].
  apply elem_of_cons in Hsv as [Heq|Hsv]; simpl.
  - simplify_eq. by rewrite String.eqb_refl.
  - destruct (String.eqb k s) eqn:Hks; [|by apply IH].
    apply String.eqb_eq in Hks as ->. destruct Hk. by eapply elem_of_keys.
Qed.

Lemma keys_Permutation d d' : d ≡ₚ d' → keys d ≡ₚ keys d'.
Proof. intros Hd. unfold keys. by rewrite Hd. Qed.
End Dict.

Section EnrichmentFacts.
Context {P : Type}.
Variable sf : Z → Z → Z → Z → P.
Implicit Types (query : list string) (gene_sets : dict (list string)).

Lemma collect_ok {A B} (f : A → result B) (g : A → B) (l : list A) :
  (∀ a, a ∈ l → f a = Ok (g a)) → collect f l = Ok (map g l).
Proof.
  induction l as [|a l IH]; intros Hf; simpl; [done|].
  rewrite Hf by left. rewrite bind_Ok, IH; [done|].
  intros b Hb. apply Hf. by right.
Qed.

(** The loop never raises on a dict: one row per key, in sorted order. *)
Lemma calc_pvalues_rows query gene_sets background :
  NoDup (keys gene_sets) →
  calc_pvalues sf query gene_sets background =
    Ok (zip_star
          (map (λ s, enrichment_row sf query background
                       (default [] (get gene_sets s)))
               (sorted (keys gene_sets)))).
Proof.
  intros Hnd. unfold calc_pvalues.
  rewrite (collect_ok _ (λ s, enrichment_row sf query background
                                (default [] (get gene_sets s)))); [done|].
  intros s Hs. rewrite sorted_Permutation in Hs.
  apply keys_elem_of in Hs as [category Hs].
  by rewrite (get_elem_of _ _ _ Hnd Hs).
Qed.

Lemma calc_pvalues_Permutation query gene_sets gene_sets' background :
  NoDup (keys gene_sets) → gene_sets' ≡ₚ gene_sets →
  calc_pvalues sf query gene_sets' background =
  calc_pvalues sf query gene_sets background.
Proof.
  intros Hnd Hperm.
  assert (NoDup (keys gene_sets')) as Hnd'.
  { by rewrite (keys_Permutation _ _ Hperm). }
  rewrite !calc_pvalues_rows by done.
  rewrite (sorted_unique (keys gene_sets') (keys gene_sets))
    by (by apply keys_Permutation).
  do 2 f_equal. apply list_fmap_ext. intros i s Hs.
  apply list_elem_of_lookup_2 in Hs. rewrite sorted_Permutation in Hs.
  apply keys_elem_of in Hs as [category Hs].
  rewrite (get_elem_of _ _ _ Hnd Hs).
  rewrite <-Hperm in Hs. by rewrite (get_elem_of _ _ _ Hnd' Hs).
Qed.

(** C7. For a non-empty category mapping, [calc_pvalues] yields four
    columns with one entry per category; entry [i] is the row of the
    category whose name is the [i]-th in strictly ascending lexicographic
    order; and the result is the same for every order in which the mapping
    lists its items. *)
Theorem calc_pvalues_sorted_by_name query gene_sets background :
  NoDup (keys gene_sets) → gene_sets ≠ [] →
  ∃ names pvals xs ms hits,
    names ≡ₚ keys gene_sets ∧
    (∀ i j a b, i < j → names !! i = Some a → names !! j = Some b →
       str_le a b ∧ a ≠ b) ∧
    calc_pvalues sf query gene_sets background
      = Ok (Columns pvals xs ms hits) ∧
    length pvals = length gene_sets ∧ length xs = length gene_sets ∧
    length ms = length gene_sets ∧ length hits = length gene_sets ∧
    (∀ i s category, names !! i = Some s → (s, category) ∈ gene_sets →
       let k := Z.of_nat (length query) in
       let bg_num := match background with None => 20000%Z | Some b => b end in
       let m := Z.of_nat (length category) in
       let h : gset string := list_to_set query ∩ list_to_set category in
       let x := Z.of_nat (size h) in
       pvals !! i = Some (sf (x - 1)%Z bg_num m k) ∧
       xs !! i = Some x ∧ ms !! i = Some m ∧ hits !! i = Some h) ∧
    (∀ gene_sets', gene_sets' ≡ₚ gene_sets →
       calc_pvalues sf query gene_sets' background =
       calc_pvalues sf query gene_sets background).
Proof.
  intros Hnd Hne.
  set (row := λ s, enrichment_row sf query background
                     (default [] (get gene_sets s))).
  set (names := sorted (keys gene_sets)).
  assert (length names = length gene_sets) as Hlen.
  { unfold names, keys. by rewrite sorted_Permutation, length_map. }
  exists names, (map (λ v, v.1.1.1) (map row names)),
    (map (λ v, v.1.1.2) (map row names)), (map (λ v, v.1.2) (map row names)),
    (map (λ v, v.2) (map row names)).
  split_and!.
  - apply sorted_Permutation.
  - intros i j a b Hij Ha Hb. split.
    + apply (StronglySorted_lookup_lt str_le names i j a b);
        [apply sorted_StronglySorted|done..].
    + intros ->.
      assert (NoDup names) as Hndn.
      { unfold names. by rewrite sorted_Permutation. }
      pose proof (NoDup_lookup _ _ _ _ Hndn Ha Hb). lia.
  - rewrite calc_pvalues_rows by done. fold names. fold row.
    unfold zip_star. destruct (map row names) eqn:Hrows; [|done].
    apply (f_equal length) in Hrows. rewrite length_map, Hlen in Hrows.
    destruct gene_sets; simplify_eq/=.
  - by rewrite !length_map.
  - by rewrite !length_map.
  - by rewrite !length_map.
  - by rewrite !length_map.
  - intros i s category Hs Hcat. simpl.
    rewrite !list_lookup_fmap, Hs. simpl. unfold row.
    by rewrite (get_elem_of _ _ _ Hnd Hcat).
  - intros gene_sets' Hperm. by apply calc_pvalues_Permutation.
Qed.

(** What deduplication leaves of a query with duplicates: the output is
    that of the deduplicated query, except that the survival function is
    called with the length of the query as it was given. *)
Lemma calc_pvalues_remove_dups query gene_sets background :
  calc_pvalues sf query gene_sets background =
  calc_pvalues (λ x M n _, sf x M n (Z.of_nat (length query)))
    (remove_dups query) gene_sets background.
Proof.
  unfold calc_pvalues.
  assert (list_to_set (remove_dups query) =@{gset string} list_to_set query)
    as ->; [|done].
  apply set_eq. intros s.
  by rewrite !elem_of_list_to_set, elem_of_remove_dups.
Qed.

(** C6 (the code at the failing input). With the query [["A"; "A"]] the
    survival function is called with draw size 2, the length of the query
    with its duplicate, while on the deduplicated query [["A"]] it is called
    with draw size 1; overlap count, category size and hits agree. *)
Theorem calc_pvalues_draw_size_counts_duplicates :
  calc_pvalues sf ["A"; "A"]%string [("c", ["A"])]%string None =
    Ok (Columns [sf 0 20000 1 2]%Z [1%Z] [1%Z] [{["A"%string]}]) ∧
  calc_pvalues sf ["A"]%string [("c", ["A"])]%string None =
    Ok (Columns [sf 0 20000 1 1]%Z [1%Z] [1%Z] [{["A"%string]}]).
Proof. split; vm_compute; reflexivity. Qed.
End EnrichmentFacts.

(** * The modelled survival function below its support *)

Section Hypergeometric.
Lemma sum_upto_ext (f g : nat → nat) m :
  (∀ j, j ≤ m → f j = g j) → sum_upto f m = sum_upto g m.
Proof.
  induction m as [|m IH]; intros Hfg; simpl.
  - by apply Hfg.
  - rewrite IH, (Hfg (S m)); [done|lia|]. intros j Hj. apply Hfg. lia.
Qed.

Lemma sum_upto_add (f g : nat → nat) m :
  sum_upto (λ j, f j + g j) m = sum_upto f m + sum_upto g m.
Proof. induction m as [|m IH]; simpl; [done|]. rewrite IH. lia. Qed.

Lemma sum_upto_zero m : sum_upto (λ _, 0) m = 0.
Proof. induction m as [|m IH]; simpl; [done|]. by rewrite IH. Qed.

Lemma sum_upto_shift (f : nat → nat) m :
  sum_upto f (S m) = f 0 + sum_upto (λ j, f (S j)) m.
Proof.
  induction m as [|m IH]; [done|].
  change (sum_upto f (S (S m))) with (sum_upto f (S m) + f (S (S m))).
  rewrite IH. simpl. lia.
Qed.

Lemma binom_0_r n : binom n 0 = 1.
Proof. by destruct n. Qed.

Lemma binom_SS n k : binom (S n) (S k) = binom n k + binom n (S k).
Proof. done. Qed.

Lemma binom_pos n : ∀ k, k ≤ n → 0 < binom n k.
Proof.
  induction n as [|n IH]; intros [|k] Hk; simpl; try lia.
  specialize (IH k). lia.
Qed.

(** Vandermonde's identity. *)
Lemma vandermonde a : ∀ b N,
  sum_upto (λ j, binom a j * binom b (N - j)) N = binom (a + b) N.
Proof.
  induction a as [|a IH]; intros b [|N].
  - simpl. by rewrite binom_0_r.
  - rewrite sum_upto_shift.
    rewrite (sum_upto_ext _ (λ _, 0)) by done.
    rewrite sum_upto_zero. simpl. lia.
  - simpl. by rewrite binom_0_r.
  - rewrite sum_upto_shift.
    rewrite (sum_upto_ext _
               (λ j, binom a j * binom b (N - j)
                     + binom a (S j) * binom b (N - j))).
    2:{ intros j _. simpl. lia. }
    rewrite sum_upto_add, IH.
    pose proof (IH b (S N)) as IH'. rewrite sum_upto_shift in IH'.
    rewrite binom_0_r in IH'.
    rewrite (sum_upto_ext (λ j, binom a (S j) * binom b (S N - S j))
               (λ j, binom a (S j) * binom b (N - j))) in IH' by done.
    change (S a + b) with (S (a + b)). rewrite binom_0_r, binom_SS.
    replace (S N - 0) with (S N) in * by lia. lia.
Qed.

Lemma Qred_self_div (c : nat) :
  0 < c → Qred (inject_Z (Z.of_nat c) / inject_Z (Z.of_nat c)) = 1%Q.
Proof.
  intros Hc. change 1%Q with (Qred 1). apply Qred_complete.
  apply Qmult_inv_r. intros Heq.
  pose proof (inject_nat_pos c Hc) as Hpos. rewrite Heq in Hpos.
  by apply Qlt_irrefl in Hpos.
Qed.

(** Below the support, on a valid parameterisation, the whole mass. *)
Lemma hypergeom_sf_below_support M n N :
  (0 < M)%Z → (0 ≤ n)%Z → (n ≤ M)%Z → (0 ≤ N)%Z → (N ≤ M)%Z →
  hypergeom_sf (-1) M n N = XFin 1.
Proof.
  intros HM Hn0 HnM HN0 HNM. unfold hypergeom_sf.
  rewrite bool_decide_eq_true_2 by done.
  rewrite (sum_upto_ext _
             (λ j, binom (Z.to_nat n) j
                   * binom (Z.to_nat M - Z.to_nat n) (Z.to_nat N - j))).
  2:{ intros j _. rewrite bool_decide_eq_true_2; [done|lia]. }
  rewrite vandermonde.
  replace (Z.to_nat n + (Z.to_nat M - Z.to_nat n)) with (Z.to_nat M) by lia.
  rewrite Qred_self_div; [done|]. apply binom_pos. lia.
Qed.

Lemma hypergeom_sf_invalid k M n N :
  (M < n)%Z ∨ (M < N)%Z ∨ (M ≤ 0)%Z → hypergeom_sf k M n N = XNaN.
Proof.
  intros Hbad. unfold hypergeom_sf. rewrite bool_decide_eq_false_2; [done|lia].
Qed.

(** C8 (as amended). For every category whose overlap with the query is
    empty (x = 0), an empty category (m = 0) included, the p-value is exactly
    1.0 whenever the background size is positive and at least the category
    size and the query length: the modelled survival function at -1 on a
    valid parameterisation. *)
Theorem zero_overlap_pvalue_is_one query gene_sets background :
  NoDup (keys gene_sets) →
  let bg_num := match background with None => 20000%Z | Some b => b end in
  (0 < bg_num)%Z → (Z.of_nat (length query) ≤ bg_num)%Z →
  ∀ pvals xs ms hits i m,
    calc_pvalues hypergeom_sf query gene_sets background
      = Ok (Columns pvals xs ms hits) →
    xs !! i = Some 0%Z → ms !! i = Some m → (m ≤ bg_num)%Z →
    pvals !! i = Some (XFin 1).
Proof.
  intros Hnd bg_num Hbg Hk pvals xs ms hits i m Hcalc Hx Hm Hmbg.
  rewrite calc_pvalues_rows in Hcalc by done.
  unfold zip_star in Hcalc.
  destruct (map _ (sorted (keys gene_sets))) as [|r rows] eqn:Hrows; [done|].
  rewrite <-Hrows in Hcalc. clear r rows Hrows.
  injection Hcalc as <- <- <- <-.
  rewrite list_lookup_fmap in Hx, Hm. rewrite list_lookup_fmap.
  rewrite list_lookup_fmap in Hx, Hm |- *.
  destruct (sorted (keys gene_sets) !! i) as [s|]; [|done].
  simpl in *. injection Hx as Hx. injection Hm as Hm. f_equal.
  rewrite Hx. change (0 - 1)%Z with (-1)%Z.
  apply hypergeom_sf_below_support; fold bg_num; lia.
Qed.
End Hypergeometric.

(** * Bonferroni, and the claims at concrete inputs *)


(** C1 (counterexample). On the one-entry array [[NaN]] the reject entry
    at index 0 is NaN, whose truth value is true, under both methods. *)
Lemma nan_reject_entry_is_not_false :
  ¬ nan_gives_nan_and_false (F:=binary64)
      (multiple_testing_correction (F:=binary64) insertion_argsort 0%float false
         [nan]%float 0.05%float "bonferroni") [nan]%float ∧
  ¬ nan_gives_nan_and_false (F:=binary64)
      (multiple_testing_correction (F:=binary64) insertion_argsort 0%float false
         [nan]%float 0.05%float "benjamini-hochberg") [nan]%float.
Proof.
  split; intros (q & rej & Hok & _ & _ & Hnan);
    vm_compute in Hok; injection Hok as <- <-;
    destruct (Hnan 0 nan eq_refl eq_refl) as (qi & ri & _ & Hri & _ & Htruth);
    injection Hri as <-; vm_compute in Htruth; discriminate.
Qed.

(** C8 (counterexample). With background size 1 and the category
    [["B"; "C"]], which the query [["A"]] does not meet, the overlap count is 0
    and the p-value is NaN. *)
Lemma zero_overlap_pvalue_may_be_nan :
  ¬ zero_overlap_gives_one ["A"]%string [("c", ["B"; "C"])]%string (Some 1%Z).
Proof.
  intros H.
  specialize (H [XNaN] [0%Z] [2%Z] [∅] 0).
  assert (Some XNaN = Some (XFin 1)) as Heq; [|discriminate].
  apply H; [vm_compute; reflexivity|reflexivity].
Qed.

(** ** The theorems at concrete inputs *)

Lemma nan_positions_carry_the_input_witness :
  ("bonferroni"%string = "bonferroni"%string
   ∨ "bonferroni"%string = "benjamini-hochberg"%string) ∧
  ∃ q rej,
    multiple_testing_correction (F:=binary64) insertion_argsort 0%float false
      [0.25; nan]%float 0.05%float "bonferroni" = Ok (q, rej) ∧
    length q = 2 ∧ length rej = 2.
Proof.
  split; [by left|].
  destruct (nan_positions_carry_the_input (F:=binary64) insertion_argsort
              0%float false insertion_argsort_permutes
              [0.25; nan]%float 0.05%float "bonferroni" (or_introl eq_refl))
    as (q & rej & Hok & Hlq & Hlrej & _).
  by exists q, rej.
Defined.

Lemma raises_iff_method_unknown_witness :
  argsort_permutes (F:=binary64) insertion_argsort ∧
  multiple_testing_correction (F:=binary64) insertion_argsort 0%float false
    [0.25; nan]%float 0.05%float "holm" = Raise (ValueError "holm").
Proof.
  split; [apply insertion_argsort_permutes|].
  apply (raises_iff_method_unknown (F:=binary64) insertion_argsort
           0%float false insertion_argsort_permutes); done.
Defined.

Lemma empty_and_all_nan_inputs_return_witness :
  Forall (λ x, fisnan (Float64:=binary64) x = true) [nan; nan]%float ∧
  multiple_testing_correction (F:=binary64) insertion_argsort 0%float false
    [nan; nan]%float 0.05%float "benjamini-hochberg"
    = Ok ([nan; nan]%float, [nan; nan]%float).
Proof.
  assert (Forall (λ x, fisnan (Float64:=binary64) x = true) [nan; nan]%float)
    as Hall by (by repeat constructor).
  split; [done|].
  apply (empty_and_all_nan_inputs_return (F:=binary64) insertion_argsort
           0%float false insertion_argsort_permutes
           [nan; nan]%float 0.05%float "benjamini-hochberg"
           (or_intror eq_refl) Hall).
Defined.

Lemma scenario_valid : valid_pvalues (F:=exactQ) scenario_pvalues.
Proof.
  unfold valid_pvalues, scenario_pvalues.
  repeat constructor; (by left) || (right; by split).
Qed.


Lemma bh_qvalues_monotone_and_clamped_witness :
  valid_pvalues (F:=exactQ) scenario_pvalues ∧
  (Z.of_nat (length scenario_pvalues) < 2 ^ 63)%Z ∧
  ∃ q rej,
    multiple_testing_correction (F:=exactQ) insertion_argsort XNaN false
      scenario_pvalues scenario_alpha "benjamini-hochberg" = Ok (q, rej) ∧
    length q = length scenario_pvalues ∧
    ∀ i x, scenario_pvalues !! i = Some x → xQ_isnan x = false →
      ∃ qi, q !! i = Some qi ∧
            xQ_leb (XFin 0) qi = true ∧ xQ_leb qi (XFin 1) = true.
Proof.
  split; [apply scenario_valid|]. split; [reflexivity|].
  destruct (bh_qvalues_monotone_and_clamped (F:=exactQ) insertion_argsort
              XNaN false insertion_argsort_permutes insertion_argsort_sorts
              scenario_pvalues scenario_alpha scenario_valid eq_refl)
    as (psort & q & rej & _ & _ & _ & Hok & Hlen & Hrange & _).
  by exists q, rej.
Defined.

Lemma bh_order_invariant_witness :
  valid_pvalues (F:=exactQ) scenario_pvalues ∧
  fle (F:=exactQ) fzero scenario_alpha ∧
  [4; 3; 2; 1; 0] ≡ₚ seq 0 (length scenario_pvalues) ∧
  np_take scenario_pvalues [4; 3; 2; 1; 0] = Ok (rev scenario_pvalues) ∧
  ∃ q rej q' rej',
    multiple_testing_correction (F:=exactQ) insertion_argsort XNaN false
      scenario_pvalues scenario_alpha "benjamini-hochberg" = Ok (q, rej) ∧
    multiple_testing_correction (F:=exactQ) insertion_argsort XNaN false
      (rev scenario_pvalues) scenario_alpha "benjamini-hochberg"
      = Ok (q', rej') ∧
    ∀ j i, [4; 3; 2; 1; 0] !! j = Some i → rej' !! j = rej !! i.
Proof.
  assert ([4; 3; 2; 1; 0] ≡ₚ seq 0 (length scenario_pvalues)) as Hsigma.
  { symmetry. apply (Permutation_rev [0; 1; 2; 3; 4]). }
  split; [apply scenario_valid|]. split; [reflexivity|].
  split; [exact Hsigma|]. split; [reflexivity|].
  destruct (bh_order_invariant (F:=exactQ) insertion_argsort XNaN false
              insertion_argsort_permutes insertion_argsort_sorts
              scenario_pvalues [4; 3; 2; 1; 0] (rev scenario_pvalues)
              scenario_alpha scenario_valid eq_refl eq_refl Hsigma eq_refl)
    as (q & rej & q' & rej' & Hok & Hok' & Hsame).
  exists q, rej, q', rej'. split_and!; [done..|].
  intros j i Hj. by destruct (Hsame j i Hj).
Defined.

Lemma calc_pvalues_sorted_by_name_witness :
  NoDup (keys [("b", ["A"]); ("a", ["B"])]%string) ∧
  ∃ names pvals xs ms hits,
    names ≡ₚ ["b"; "a"]%string ∧
    calc_pvalues hypergeom_sf ["A"]%string
      [("b", ["A"]); ("a", ["B"])]%string None = Ok (Columns pvals xs ms hits) ∧
    length pvals = 2.
Proof.
  assert (NoDup (keys [("b", ["A"]); ("a", ["B"])]%string)) as Hnd.
  { apply NoDup_cons. split; [|apply NoDup_singleton].
    intros Hin%list_elem_of_singleton. discriminate. }
  split; [exact Hnd|].
  destruct (calc_pvalues_sorted_by_name hypergeom_sf ["A"]%string
              [("b", ["A"]); ("a", ["B"])]%string None Hnd)
    as (names & pvals & xs & ms & hits & Hperm & _ & Hok & Hlen & _);
    [discriminate|].
  by exists names, pvals, xs, ms, hits.
Defined.

Lemma zero_overlap_pvalue_is_one_witness :
  NoDup (keys [("c", ["B"; "C"])]%string) ∧
  calc_pvalues hypergeom_sf ["A"]%string [("c", ["B"; "C"])]%string None
    = Ok (Columns [XFin 1] [0%Z] [2%Z] [∅]) ∧
  [XFin 1] !! 0 = Some (XFin 1).
Proof.
  assert (NoDup (keys [("c", ["B"; "C"])]%string)) as Hnd.
  { apply NoDup_singleton. }
  assert (calc_pvalues hypergeom_sf ["A"]%string [("c", ["B"; "C"])]%string
            None = Ok (Columns [XFin 1] [0%Z] [2%Z] [∅])) as Hcalc.
  { vm_compute. reflexivity. }
  split; [exact Hnd|]. split; [exact Hcalc|].
  refine (zero_overlap_pvalue_is_one ["A"]%string [("c", ["B"; "C"])]%string
            None Hnd _ _ [XFin 1] [0%Z] [2%Z] [∅] 0 2%Z Hcalc _ _ _);
    simpl; (reflexivity || lia).
Defined.

(** ** The scenario of the specification on binary64 *)

(** [[0.001, 0.2, 0.03, NaN, 0.04]] with alpha 0.05: only the smallest
    p-value is rejected, the q-values 0.03 and 0.04 share the running
    minimum, and index 3 holds NaN in both outputs. *)
Example scenario_on_binary64 :
  ∃ q_2 : @f64 binary64,
    multiple_testing_correction (F:=binary64) insertion_argsort 0%float false
      [0.001; 0.2; 0.03; nan; 0.04]%float 0.05%float "benjamini-hochberg"
    = Ok ([0.004; 0.2; q_2; nan; q_2]%float, [1; 0; 0; nan; 0]%float) ∧
    PrimFloat.ltb 0.05 q_2 = true ∧ PrimFloat.ltb q_2 0.06 = true.
Proof. eexists. split_and!; vm_compute; reflexivity. Qed.

(** * Beyond the specification: calc_pvalues *)

Section EnrichmentMore.
Context {P : Type}.
Variable sf : Z → Z → Z → Z → P.
Implicit Types (query category : list string) (gene_sets : dict (list string)).

Lemma get_is_Some {V} (d : dict V) s : s ∈ keys d → is_Some (get d s).
Proof.
  induction d as [|[k v] d IH]; simpl; [by intros ?%elem_of_nil|].
  intros [->|Hs]%elem_of_cons.
  - by rewrite String.eqb_refl.
  - destruct (String.eqb k s); [done|by apply IH].
Qed.

(** The loop finds every key it iterates over, whatever the item list. *)
Lemma calc_pvalues_rows_total query gene_sets background :
  calc_pvalues sf query gene_sets background =
    Ok (zip_star
          (map (λ s, enrichment_row sf query background
                       (default [] (get gene_sets s)))
               (sorted (keys gene_sets)))).
Proof.
  unfold calc_pvalues.
  rewrite (collect_ok _ (λ s, enrichment_row sf query background
                                (default [] (get gene_sets s)))); [done|].
  intros s Hs. rewrite sorted_Permutation in Hs.
  by destruct (get_is_Some gene_sets s Hs) as [category ->].
Qed.

Lemma length_remove_dups (l : list string) : length (remove_dups l) ≤ length l.
Proof.
  induction l as [|x l IH]; simpl; [done|].
  destruct (decide_rel elem_of x l); simpl; lia.
Qed.

Lemma size_list_to_set_le (l : list string) :
  size (list_to_set l : gset string) ≤ length l.
Proof.
  assert (list_to_set l =@{gset string} list_to_set (remove_dups l)) as ->.
  { apply set_eq. intros s.
    by rewrite !elem_of_list_to_set, elem_of_remove_dups. }
  rewrite size_list_to_set by apply NoDup_remove_dups.
  apply length_remove_dups.
Qed.

Lemma hits_shared query category :
  list_to_set query ∩ list_to_set category
    =@{gset string} list_to_set (shared query category).
Proof.
  apply set_eq. intros g. unfold shared.
  rewrite elem_of_intersection, !elem_of_list_to_set, list_elem_of_filter,
    elem_of_remove_dups.
  tauto.
Qed.

Lemma NoDup_shared query category : NoDup (shared query category).
Proof. apply NoDup_filter, NoDup_remove_dups. Qed.

(** The rows behind the columns. *)
Lemma columns_rows query gene_sets background pvals xs ms hits i :
  calc_pvalues sf query gene_sets background = Ok (Columns pvals xs ms hits) →
  i < length gene_sets →
  ∃ s, sorted (keys gene_sets) !! i = Some s ∧
    let row := enrichment_row sf query background
                 (default [] (get gene_sets s)) in
    pvals !! i = Some row.1.1.1 ∧ xs !! i = Some row.1.1.2 ∧
    ms !! i = Some row.1.2 ∧ hits !! i = Some row.2.
Proof.
  rewrite calc_pvalues_rows_total. unfold zip_star. intros Hcalc Hi.
  destruct (map _ (sorted (keys gene_sets))) as [|r rows] eqn:Hrows; [done|].
  rewrite <-Hrows in Hcalc. clear r rows Hrows.
  injection Hcalc as <- <- <- <-.
  destruct (lookup_lt_is_Some_2 (sorted (keys gene_sets)) i) as [s Hs].
  { unfold keys. by rewrite sorted_Permutation, length_map. }
  exists s. split; [done|]. simpl.
  by rewrite !list_lookup_fmap, Hs.
Qed.

(** X1. What [calc_pvalues] returns is the empty zip, with no column to
    unpack, exactly when the category mapping is empty. *)
Theorem calc_pvalues_no_columns_iff_empty query gene_sets background c :
  calc_pvalues sf query gene_sets background = Ok c →
  c = NoColumns ↔ gene_sets = [].
Proof.
  rewrite calc_pvalues_rows_total. intros [= <-].
  unfold zip_star.
  destruct (map _ (sorted (keys gene_sets))) as [|r rows] eqn:Hrows.
  - split; [intros _|done].
    apply (f_equal length) in Hrows.
    rewrite length_map in Hrows. unfold keys in Hrows.
    rewrite sorted_Permutation, length_map in Hrows.
    by apply nil_length_inv.
  - split; [done|]. intros ->. done.
Qed.

(** X2. In every row the overlap count is the size of the hit set, lies
    between 0 and the category size, and is at most the length of the query;
    every hit is an identifier of the query. *)
Theorem overlap_count_bounds query gene_sets background pvals xs ms hits :
  calc_pvalues sf query gene_sets background = Ok (Columns pvals xs ms hits) →
  ∀ i x m h, xs !! i = Some x → ms !! i = Some m → hits !! i = Some h →
    x = Z.of_nat (size h) ∧ (0 ≤ x)%Z ∧ (x ≤ m)%Z ∧
    (x ≤ Z.of_nat (length query))%Z ∧
    ∀ g, g ∈ h → g ∈ query.
Proof.
  intros Hcalc i x m h Hx Hm Hh.
  assert (i < length gene_sets) as Hi.
  { rewrite calc_pvalues_rows_total in Hcalc. unfold zip_star in Hcalc.
    destruct (map _ (sorted (keys gene_sets))) as [|r rows] eqn:Hrows; [done|].
    rewrite <-Hrows in Hcalc. injection Hcalc as <- <- <- <-.
    apply lookup_lt_Some in Hx. rewrite !length_map in Hx.
    unfold keys in Hx. by rewrite sorted_Permutation, length_map in Hx. }
  destruct (columns_rows _ _ _ _ _ _ _ i Hcalc Hi)
    as (s & _ & _ & Hx' & Hm' & Hh').
  rewrite Hx in Hx'. rewrite Hm in Hm'. rewrite Hh in Hh'.
  injection Hx' as ->. injection Hm' as ->. injection Hh' as ->. simpl.
  set (category := default [] (get gene_sets s)).
  pose proof (subseteq_size (list_to_set query ∩ list_to_set category)
                (list_to_set category : gset string)) as Hc.
  pose proof (subseteq_size (list_to_set query ∩ list_to_set category)
                (list_to_set query : gset string)) as Hq.
  pose proof (size_list_to_set_le category).
  pose proof (size_list_to_set_le query).
  assert (list_to_set query ∩ list_to_set category
            ⊆@{gset string} list_to_set category) as Hsubc
    by apply intersection_subseteq_r.
  assert (list_to_set query ∩ list_to_set category
            ⊆@{gset string} list_to_set query) as Hsubq
    by apply intersection_subseteq_l.
  specialize (Hc Hsubc). specialize (Hq Hsubq).
  split_and!; [done|lia|lia|lia|].
  - intros g Hg. apply elem_of_intersection in Hg as [Hg _].
    by apply elem_of_list_to_set in Hg.
Qed.

(** X3. The overlap count of a category is the number of distinct query
    identifiers that occur among its members, and it is 0 exactly when no
    query identifier does. *)
Theorem overlap_count_is_distinct_shared
    query gene_sets background pvals xs ms hits :
  NoDup (keys gene_sets) →
  calc_pvalues sf query gene_sets background = Ok (Columns pvals xs ms hits) →
  ∀ i s category,
    sorted (keys gene_sets) !! i = Some s → (s, category) ∈ gene_sets →
    xs !! i = Some (Z.of_nat (length (shared query category))) ∧
    (xs !! i = Some 0%Z ↔ ∀ g, g ∈ query → g ∉ category).
Proof.
  intros Hnd Hcalc i s category Hs Hcat.
  assert (i < length gene_sets) as Hi.
  { apply lookup_lt_Some in Hs. unfold keys in Hs.
    by rewrite sorted_Permutation, length_map in Hs. }
  destruct (columns_rows _ _ _ _ _ _ _ i Hcalc Hi)
    as (s' & Hs' & _ & Hx & _).
  rewrite Hs in Hs'. injection Hs' as <-.
  rewrite (get_elem_of _ _ _ Hnd Hcat) in Hx. simpl in Hx.
  rewrite hits_shared, size_list_to_set in Hx by apply NoDup_shared.
  split; [done|]. rewrite Hx. split.
  - intros Hzero g Hg Hgc.
    assert (length (shared query category) = 0) as Hnil by (simplify_eq; lia).
    apply nil_length_inv in Hnil.
    assert (g ∈ shared query category) as Hin.
    { unfold shared. apply list_elem_of_filter.
      by rewrite elem_of_remove_dups. }
    rewrite Hnil in Hin. by apply elem_of_nil in Hin.
  - intros Hdisj.
    destruct (shared query category) as [|g l] eqn:Hsh; [done|exfalso].
    assert (g ∈ shared query category) as Hin by (rewrite Hsh; left).
    unfold shared in Hin. apply list_elem_of_filter in Hin as [Hgc Hgq].
    rewrite elem_of_remove_dups in Hgq. exact (Hdisj g Hgq Hgc).
Qed.

Lemma list_to_set_Permutation (l l' : list string) :
  l ≡ₚ l' → list_to_set l =@{gset string} list_to_set l'.
Proof.
  intros Hl. apply set_eq. intros g. by rewrite !elem_of_list_to_set, Hl.
Qed.

Lemma list_to_set_remove_dups (l : list string) :
  list_to_set (remove_dups l) =@{gset string} list_to_set l.
Proof.
  apply set_eq. intros g. by rewrite !elem_of_list_to_set, elem_of_remove_dups.
Qed.

Lemma enrichment_row_Permutation query query' background category category' :
  query' ≡ₚ query → category' ≡ₚ category →
  enrichment_row sf query' background category' =
  enrichment_row sf query background category.
Proof.
  intros Hq Hc. unfold enrichment_row.
  by rewrite (list_to_set_Permutation _ _ Hq), (list_to_set_Permutation _ _ Hc),
    (Permutation_length Hq), (Permutation_length Hc).
Qed.

Lemma same_members_keys gene_sets gene_sets' :
  same_members gene_sets gene_sets' → keys gene_sets' = keys gene_sets.
Proof.
  induction 1 as [|[k v] [k' v'] d d' [Hk _] _ IH]; simpl in *; [done|].
  by rewrite Hk, IH.
Qed.

Lemma same_members_get gene_sets gene_sets' s :
  same_members gene_sets gene_sets' →
  default [] (get gene_sets' s) ≡ₚ default [] (get gene_sets s).
Proof.
  induction 1 as [|[k v] [k' v'] d d' [Hk Hv] _ IH]; simpl in *; [done|].
  subst k'. by destruct (String.eqb k s).
Qed.

Lemma zip_star_columns (rows : list (P * Z * Z * gset string)) :
  rows ≠ [] →
  zip_star rows =
    Columns (map (λ v, v.1.1.1) rows) (map (λ v, v.1.1.2) rows)
            (map (λ v, v.1.2) rows) (map (λ v, v.2) rows).
Proof. by destruct rows. Qed.

(** X4. The result does not depend on the order in which the query lists
    its identifiers, nor on the order in which a category lists its
    members. *)
Theorem calc_pvalues_ignores_listing_order
    query query' gene_sets gene_sets' background :
  query' ≡ₚ query → same_members gene_sets gene_sets' →
  calc_pvalues sf query' gene_sets' background =
  calc_pvalues sf query gene_sets background.
Proof.
  intros Hq Hd. rewrite !calc_pvalues_rows_total.
  rewrite (same_members_keys _ _ Hd). do 2 f_equal.
  apply list_fmap_ext. intros i s _.
  apply enrichment_row_Permutation; [done|by apply same_members_get].
Qed.

(** X5. Duplicates in the query change nothing but the p-values: the
    overlap counts, the category sizes and the hit sets are those of the
    query without its duplicates, row for row. *)
Theorem duplicates_leave_counts_and_hits
    query gene_sets background pvals xs ms hits :
  calc_pvalues sf query gene_sets background = Ok (Columns pvals xs ms hits) →
  ∃ pvals',
    calc_pvalues sf (remove_dups query) gene_sets background
      = Ok (Columns pvals' xs ms hits) ∧
    length pvals' = length pvals.
Proof.
  rewrite !calc_pvalues_rows_total.
  destruct (sorted (keys gene_sets)) as [|s names]; [done|].
  assert (s :: names ≠ []) as Hne by done.
  revert Hne. generalize (s :: names). clear s names. intros names Hne.
  rewrite !zip_star_columns by (by destruct names).
  intros Hcalc. injection Hcalc as <- <- <- <-.
  exists (map (λ v, v.1.1.1)
            (map (λ s, enrichment_row sf (remove_dups query) background
                         (default [] (get gene_sets s))) names)).
  split; [|by rewrite !length_map].
  f_equal. f_equal; rewrite !map_map; apply map_ext; intros t;
    unfold enrichment_row; simpl; by rewrite ?list_to_set_remove_dups.
Qed.
End EnrichmentMore.

(** * Beyond the specification: the corrections *)

Section CorrectionsMore.
Context {F : Float64}.
Variable argsort : list f64 → list nat.
Hypothesis argsort_perm : argsort_permutes argsort.
Implicit Types (ps p psort : list f64) (alpha : f64) (method : string).

(** An array read through a permutation of all its indices is determined
    by what is read. *)
Lemma determined_through_permutation {A} (inds : list nat) (l l' v : list A) n :
  inds ≡ₚ seq 0 n → length l = n → length l' = n →
  (∀ k i, inds !! k = Some i → l !! i = v !! k) →
  (∀ k i, inds !! k = Some i → l' !! i = v !! k) →
  l = l'.
Proof.
  intros Hinds Hl Hl' Hv Hv'. apply list_eq. intros i.
  destruct (decide (i < n)) as [Hi|Hi].
  - assert (i ∈ inds) as [k Hk]%list_elem_of_lookup.
    { rewrite Hinds. apply elem_of_seq. lia. }
    by rewrite (Hv k i Hk), (Hv' k i Hk).
  - rewrite !lookup_ge_None_2; [done|lia..].
Qed.

(** The outputs of [fdrcorrection] are the sorted-order arrays read back
    through the sort permutation, whatever the uninitialised arrays held. *)
Lemma fdrcorrection_outputs junk_f junk_b p alpha rej q psort :
  fdrcorrection argsort junk_f junk_b p alpha = Ok (rej, q) →
  np_take p (argsort p) = Ok psort →
  length rej = length p ∧ length q = length p ∧
  ∀ k i, argsort p !! k = Some i →
    rej !! i = stepup (provisional_reject psort alpha) !! k ∧
    q !! i = corrected_sorted psort !! k.
Proof.
  intros Hfdr Htake.
  destruct (fdrcorrection_view argsort junk_f junk_b p alpha argsort_perm)
    as (psort' & rej' & q' & Htake' & _ & _ & Hfdr' & Hlrej & Hlq & Hout).
  rewrite Hfdr in Hfdr'. rewrite Htake in Htake'. by simplify_eq.
Qed.

(** X6. [fdrcorrection] and [multiple_testing_correction] return the same
    result whatever the arrays allocated with [np.empty_like] held:
    uninitialised memory never reaches an output. *)
Theorem uninitialised_memory_never_leaks
    junk_f junk_b junk_f' junk_b' ps alpha method :
  fdrcorrection argsort junk_f junk_b ps alpha =
    fdrcorrection argsort junk_f' junk_b' ps alpha ∧
  multiple_testing_correction argsort junk_f junk_b ps alpha method =
    multiple_testing_correction argsort junk_f' junk_b' ps alpha method.
Proof.
  assert (∀ p, fdrcorrection argsort junk_f junk_b p alpha =
               fdrcorrection argsort junk_f' junk_b' p alpha) as Hfdr.
  { intros p.
    destruct (fdrcorrection_view argsort junk_f junk_b p alpha argsort_perm)
      as (psort & rej & q & Htake & _ & _ & Hfdr & _).
    destruct (fdrcorrection_view argsort junk_f' junk_b' p alpha argsort_perm)
      as (psort' & rej' & q' & _ & _ & _ & Hfdr' & _).
    destruct (fdrcorrection_outputs _ _ _ _ _ _ _ Hfdr Htake)
      as (Hlrej & Hlq & Hout).
    destruct (fdrcorrection_outputs _ _ _ _ _ _ _ Hfdr' Htake)
      as (Hlrej' & Hlq' & Hout').
    rewrite Hfdr, Hfdr'. do 2 f_equal.
    - apply (determined_through_permutation (argsort p) rej rej'
               (stepup (provisional_reject psort alpha)) (length p));
        [apply argsort_perm|done..| |].
      + intros k i Hk. by destruct (Hout k i Hk).
      + intros k i Hk. by destruct (Hout' k i Hk).
    - apply (determined_through_permutation (argsort p) q q'
               (corrected_sorted psort) (length p));
        [apply argsort_perm|done..| |].
      + intros k i Hk. by destruct (Hout k i Hk).
      + intros k i Hk. by destruct (Hout' k i Hk). }
  split; [apply Hfdr|].
  rewrite !multiple_testing_correction_unfold.
  rewrite !bool_index_ok, !bind_Ok by apply length_nan_mask.
  by rewrite Hfdr.
Qed.

Variable junk_f : f64.
Variable junk_b : bool.

Local Abbreviation multiple_testing_correction :=
  (multiple_testing_correction argsort junk_f junk_b).

(** X7. The q-values do not depend on the significance level: two calls
    that differ in [alpha] only return the same q-value array. *)
Theorem qvalues_do_not_depend_on_alpha ps alpha alpha' method q rej q' rej' :
  multiple_testing_correction ps alpha method = Ok (q, rej) →
  multiple_testing_correction ps alpha' method = Ok (q', rej') →
  q = q'.
Proof.
  intros Hrun Hrun'.
  destruct (String.eqb method "bonferroni") eqn:Hbonf.
  { apply String.eqb_eq in Hbonf as ->.
    rewrite multiple_testing_correction_bonferroni in Hrun, Hrun'.
    by simplify_eq. }
  destruct (String.eqb method "benjamini-hochberg") eqn:Hbh.
  2:{ apply String.eqb_neq in Hbonf, Hbh.
      by rewrite multiple_testing_correction_unknown in Hrun. }
  apply String.eqb_eq in Hbh as ->.
  destruct (multiple_testing_correction_bh argsort junk_f junk_b ps alpha
              argsort_perm) as (rej_ & q_ & Hfdr & _ & _ & Hmtc).
  destruct (multiple_testing_correction_bh argsort junk_f junk_b ps alpha'
              argsort_perm) as (rej_' & q_' & Hfdr' & _ & _ & Hmtc').
  rewrite Hmtc in Hrun. rewrite Hmtc' in Hrun'. simplify_eq.
  destruct (fdrcorrection_view argsort junk_f junk_b (non_nan ps) alpha
              argsort_perm) as (psort & _ & _ & Htake & _).
  destruct (fdrcorrection_outputs _ _ _ _ _ _ _ Hfdr Htake)
    as (_ & Hlq & Hout).
  destruct (fdrcorrection_outputs _ _ _ _ _ _ _ Hfdr' Htake)
    as (_ & Hlq' & Hout').
  f_equal.
  apply (determined_through_permutation (argsort (non_nan ps)) q_ q_'
           (corrected_sorted psort) (length (non_nan ps)));
    [apply argsort_perm|done..| |].
  - intros k i Hk. by destruct (Hout k i Hk).
  - intros k i Hk. by destruct (Hout' k i Hk).
Qed.
End CorrectionsMore.

Section BonferroniMore.
Context {F : Float64}.
Variable argsort : list f64 → list nat.
Variable junk_f : f64.
Variable junk_b : bool.
Implicit Types (ps : list f64) (alpha : f64).

Local Abbreviation multiple_testing_correction :=
  (multiple_testing_correction argsort junk_f junk_b).

(** Every entry of the Bonferroni outputs. *)
Lemma bonferroni_entries ps alpha :
  let N := length (filter (λ x, fisnan x = false) ps) in
  ∃ q rej,
    multiple_testing_correction ps alpha "bonferroni" = Ok (q, rej) ∧
    ∀ i x, ps !! i = Some x →
      if fisnan x then q !! i = Some x ∧ rej !! i = Some x
      else q !! i = Some (fmul x (of_nat N)) ∧
           rej !! i = Some (of_bool (fltb (fmul x (of_nat N)) alpha)).
Proof.
  intros N.
  destruct (bonferroni_pointwise argsort junk_f junk_b ps alpha)
    as (q & rej & Hrun & _ & _ & Hval).
  exists q, rej. split; [done|]. intros i x Hx.
  destruct (fisnan x) eqn:Hnan; [|by apply Hval].
  rewrite multiple_testing_correction_bonferroni in Hrun.
  injection Hrun as <- <-.
  assert (nan_mask ps !! i = Some false) as Hm.
  { by rewrite (nan_mask_lookup _ _ _ Hx), Hnan. }
  by rewrite !scatter_lookup_false.
Qed.

(** X8. The Bonferroni method does not depend on the order of the array
    either: correcting an array that lists the entries of [ps] in another
    order gives the same q-value and the same reject entry for each entry. *)
Theorem bonferroni_order_invariant ps sigma ps' alpha :
  sigma ≡ₚ seq 0 (length ps) → np_take ps sigma = Ok ps' →
  ∃ q rej q' rej',
    multiple_testing_correction ps alpha "bonferroni" = Ok (q, rej) ∧
    multiple_testing_correction ps' alpha "bonferroni" = Ok (q', rej') ∧
    ∀ j i, sigma !! j = Some i →
      q' !! j = q !! i ∧ rej' !! j = rej !! i.
Proof.
  intros Hsigma Htake.
  pose proof (np_take_Permutation ps ps' sigma Hsigma Htake) as Hperm.
  destruct (bonferroni_entries ps alpha) as (q & rej & Hrun & Hval).
  destruct (bonferroni_entries ps' alpha) as (q' & rej' & Hrun' & Hval').
  exists q, rej, q', rej'. split_and!; [done..|].
  intros j i Hj.
  destruct (np_take_ok ps sigma) as (r & Hr & _ & Hlook).
  { apply Forall_forall. intros i' Hi'. rewrite Hsigma in Hi'.
    apply elem_of_seq in Hi'. lia. }
  rewrite Htake in Hr. simplify_eq. specialize (Hlook j i Hj).
  destruct (lookup_lt_is_Some_2 ps i) as [x Hx].
  { apply list_elem_of_lookup_2 in Hj. rewrite Hsigma in Hj.
    apply elem_of_seq in Hj. lia. }
  rewrite Hx in Hlook.
  specialize (Hval i x Hx). specialize (Hval' j x Hlook).
  assert (length (filter (λ x, fisnan x = false) r)
          = length (filter (λ x, fisnan x = false) ps)) as Hlen
    by (by rewrite Hperm).
  rewrite Hlen in Hval'.
  destruct (fisnan x); destruct Hval as [-> ->], Hval' as [-> ->]; done.
Qed.
End BonferroniMore.

Section ExactUnitLaws.
Local Open Scope Q_scope.

Lemma xQ_nonneg_cases (x : xQ) :
  xQ_leb (XFin 0) x = true → x = XInf false ∨ ∃ q, x = XFin q ∧ 0 <= q.
Proof.
  destruct x as [|[]|q]; try done; [by left|].
  simpl. rewrite Qle_bool_iff. right. eauto.
Qed.

Lemma xQ_mul_one_l a :
  xQ_leb (XFin 0) a = true → xQ_leb (xQ_mul (XFin 1) a) a = true.
Proof.
  intros [->|(q & -> & Hq)]%xQ_nonneg_cases; [done|].
  simpl. apply Qle_bool_iff. rewrite Qmult_1_l. apply Qle_refl.
Qed.

Lemma xQ_div_one_r p :
  xQ_leb (XFin 0) p = true → xQ_leb p (XFin 1) = true →
  xQ_leb p (xQ_div p (XFin 1)) = true.
Proof.
  intros Hp0 Hp1. destruct (xQ_unit_fin p Hp0 Hp1) as (q & -> & _ & _).
  simpl. apply Qle_bool_iff.
  assert (q / 1 == q) as -> by field. apply Qle_refl.
Qed.

Lemma xQ_mul_nat_ge p N :
  xQ_leb (XFin 0) p = true → (1 ≤ N)%nat →
  xQ_leb p (xQ_mul p (XFin (inject_Z (Z.of_nat N)))) = true.
Proof.
  intros [->|(q & -> & Hq)]%xQ_nonneg_cases HN.
  - simpl. rewrite Qeq_bool_false_pos by (by apply inject_nat_pos).
    by rewrite Qsign_neg_pos by (by apply inject_nat_pos).
  - simpl. apply Qle_bool_iff.
    rewrite <-(Qmult_1_l q) at 1. rewrite (Qmult_comm q).
    apply Qmult_le_compat_r; [|done].
    change 1 with (inject_Z (Z.of_nat 1)). by apply inject_nat_le.
Qed.

Lemma xQ_mul_mono_r e a a' :
  xQ_ltb (XFin 0) e = true → xQ_leb e (XFin 1) = true →
  xQ_leb (XFin 0) a = true → xQ_leb a a' = true →
  xQ_leb (xQ_mul e a) (xQ_mul e a') = true.
Proof.
  intros He He1 Ha Haa.
  destruct (xQ_pos_cases e He) as [->|(p & -> & Hp)]; [done|].
  destruct (xQ_nonneg_cases a Ha) as [->|(q & -> & Hq)].
  - destruct a' as [|[]|q']; try done.
    simpl. by rewrite Qeq_bool_false_pos, Qsign_neg_pos.
  - destruct a' as [|[]|q']; try done.
    + simpl. by rewrite Qeq_bool_false_pos, Qsign_neg_pos.
    + simpl in Haa. apply Qle_bool_iff in Haa. simpl. apply Qle_bool_iff.
      rewrite !(Qmult_comm p). apply Qmult_le_compat_r; [done|].
      by apply Qlt_le_weak.
Qed.

#[export] Instance exactQ_unit_laws : Float64UnitLaws exactQ.
Proof.
  split.
  - apply xQ_mul_one_l.
  - apply xQ_div_one_r.
  - intros p N Hp HN _. by apply xQ_mul_nat_ge.
  - apply xQ_mul_mono_r.
Qed.
End ExactUnitLaws.

Section ConservativeFacts.
Context {F : Float64} {L : Float64Laws F}.
Implicit Types (p : list f64) (v w c alpha : f64).

Lemma fone_ne_fzero : fone ≠ fzero.
Proof.
  intros Heq.
  pose proof (frac_pos 1 1 (le_n 1) (le_n 1) eq_refl) as Hpos.
  pose proof (frac_le_one 1 1 (le_n 1) (le_n 1) eq_refl) as Hle.
  apply fltb_true in Hpos as [_ Hnle]. apply Hnle. by rewrite <-Heq.
Qed.

Lemma of_bool_fone b : of_bool b = fone → b = true.
Proof. destruct b; [done|]. intros Heq. by destruct fone_ne_fzero. Qed.

Lemma count_le_pos p w : w ∈ p → fisnan w = false → 1 ≤ count_le p w.
Proof.
  intros Hw Hnan. unfold count_le.
  assert (w ∈ filter (λ y, fleb y w = true) p) as Hin.
  { apply list_elem_of_filter. split; [by apply fle_refl|done]. }
  destruct (filter _ p); [by apply elem_of_nil in Hin|simpl; lia].
Qed.

Lemma tail_min_mono p v v' c c' :
  fle v v' → tail_min p v c → tail_min p v' c' → fle c c'.
Proof.
  intros Hvv [Hlow _] [_ (w & Hw & Hvw & Hwc)].
  eapply fle_trans; [|exact Hwc]. apply Hlow; [done|]. by eapply fle_trans.
Qed.

Lemma tail_passes_mono p alpha v v' :
  fle v v' → tail_passes p alpha v' → tail_passes p alpha v.
Proof.
  intros Hvv (w & Hw & Hvw & Htest). exists w.
  split_and!; [done| |done]. by eapply fle_trans.
Qed.

Lemma flt_le_trans x y z : fltb x y = true → fle y z → fltb x z = true.
Proof.
  intros [Hxy Hnyx]%fltb_true Hyz. apply fltb_true. split.
  - by eapply fle_trans.
  - intros Hzx. apply Hnyx. by eapply fle_trans.
Qed.

Lemma fle_lt_trans x y z : fle x y → fltb y z = true → fltb x z = true.
Proof.
  intros Hxy [Hyz Hnzy]%fltb_true. apply fltb_true. split.
  - by eapply fle_trans.
  - intros Hzx. apply Hnzy. by eapply fle_trans.
Qed.

Context {U : Float64UnitLaws F}.

(** The rank fraction of the last entry tied with [w]. *)
Lemma tie_fraction p w :
  Forall unit_interval p → (Z.of_nat (length p) < 2 ^ 63)%Z → w ∈ p →
  let e := fdiv (of_nat (count_le p w)) (of_nat (length p)) in
  fltb fzero e = true ∧ fle e fone.
Proof.
  intros Hunit Hbound Hw.
  destruct (proj1 (Forall_forall _ _) Hunit w Hw) as [Hw0 _].
  pose proof (count_le_pos p w Hw (fle_notnan_r _ _ Hw0)).
  pose proof (count_le_length p w).
  split; [by apply frac_pos|by apply frac_le_one].
Qed.

Lemma tie_raw_ge p w :
  Forall unit_interval p → (Z.of_nat (length p) < 2 ^ 63)%Z → w ∈ p →
  fle w (tie_raw p w).
Proof.
  intros Hunit Hbound Hw.
  destruct (proj1 (Forall_forall _ _) Hunit w Hw) as [Hw0 Hw1].
  destruct (tie_fraction p w Hunit Hbound Hw) as [Hpos Hle1].
  eapply fle_trans; [by apply fdiv_one_r|].
  by apply fdiv_anti_den.
Qed.

Lemma tail_min_ge p v c :
  Forall unit_interval p → (Z.of_nat (length p) < 2 ^ 63)%Z →
  tail_min p v c → fle v c.
Proof.
  intros Hunit Hbound [_ (w & Hw & Hvw & Hwc)].
  eapply fle_trans; [exact Hvw|].
  eapply fle_trans; [by apply tie_raw_ge|done].
Qed.

Lemma tail_passes_le_alpha p alpha v :
  Forall unit_interval p → (Z.of_nat (length p) < 2 ^ 63)%Z →
  fle fzero alpha → tail_passes p alpha v → fle v alpha.
Proof.
  intros Hunit Hbound Halpha (w & Hw & Hvw & Htest).
  destruct (tie_fraction p w Hunit Hbound Hw) as [Hpos Hle1].
  eapply fle_trans; [exact Hvw|].
  eapply fle_trans; [exact Htest|].
  eapply fle_trans; [|by apply fmul_one_l].
  apply fmul_mono; [done..| |done]. apply fle_refl, fone_notnan.
Qed.

Lemma tail_passes_alpha_mono p alpha alpha' v :
  Forall unit_interval p → (Z.of_nat (length p) < 2 ^ 63)%Z →
  fle fzero alpha → fle alpha alpha' →
  tail_passes p alpha v → tail_passes p alpha' v.
Proof.
  intros Hunit Hbound Halpha Haa (w & Hw & Hvw & Htest).
  destruct (tie_fraction p w Hunit Hbound Hw) as [Hpos Hle1].
  exists w. split_and!; [done..|].
  eapply fle_trans; [exact Htest|]. by apply fmul_mono_r.
Qed.
End ConservativeFacts.

Section Conservative.
Context {F : Float64} {L : Float64Laws F} {U : Float64UnitLaws F}.
Variable argsort : list f64 → list nat.
Variable junk_f : f64.
Variable junk_b : bool.
Hypothesis argsort_perm : argsort_permutes argsort.
Hypothesis argsort_sorted : argsort_sorts argsort.
Implicit Types (ps : list f64) (alpha : f64).

Local Abbreviation multiple_testing_correction :=
  (multiple_testing_correction argsort junk_f junk_b).

(** X9. Benjamini-Hochberg respects the order of the p-values, index by
    index: an entry with a p-value no larger than another's gets a q-value
    no larger and is rejected whenever the other is; entries with equal
    p-values get equal q-values and the same decision. *)
Theorem bh_monotone_in_the_pvalue ps alpha :
  valid_pvalues ps → (Z.of_nat (length ps) < 2 ^ 63)%Z → fle fzero alpha →
  ∃ q rej,
    multiple_testing_correction ps alpha "benjamini-hochberg" = Ok (q, rej) ∧
    ∀ i j x y, ps !! i = Some x → ps !! j = Some y → fle x y →
      ∃ a b bi bj,
        q !! i = Some a ∧ q !! j = Some b ∧
        rej !! i = Some (of_bool bi) ∧ rej !! j = Some (of_bool bj) ∧
        fle a b ∧ (bj = true → bi = true) ∧
        (fle y x → fle b a ∧ bi = bj).
Proof.
  intros Hvalid Hbound Halpha.
  destruct (bh_by_value argsort junk_f junk_b argsort_perm argsort_sorted
              ps alpha Hvalid Hbound Halpha) as (q & rej & Hrun & _ & Hval).
  exists q, rej. split; [done|]. intros i j x y Hx Hy Hxy.
  destruct (Hval i x Hx (fle_notnan_l _ _ Hxy))
    as (c & bi & Hc & Hq & Hrej & Hbi).
  destruct (Hval j y Hy (fle_notnan_r _ _ Hxy))
    as (c' & bj & Hc' & Hq' & Hrej' & Hbj).
  exists (clamp c), (clamp c'), bi, bj. split_and!; [done..| | |].
  - apply clamp_mono. by eapply tail_min_mono.
  - intros Hj. apply Hbi. eapply tail_passes_mono; [done|]. by apply Hbj.
  - intros Hyx. split.
    + apply clamp_mono. by eapply tail_min_mono.
    + apply eq_true_iff_eq. rewrite Hbi, Hbj.
      split; by apply tail_passes_mono.
Qed.

(** X10. Benjamini-Hochberg is conservative: at every non-NaN index the
    q-value is at least the p-value, and a rejected entry has a p-value of
    at most alpha. *)
Theorem bh_never_below_the_pvalue ps alpha :
  valid_pvalues ps → (Z.of_nat (length ps) < 2 ^ 63)%Z → fle fzero alpha →
  ∃ q rej,
    multiple_testing_correction ps alpha "benjamini-hochberg" = Ok (q, rej) ∧
    ∀ i x, ps !! i = Some x → fisnan x = false →
      ∃ a, q !! i = Some a ∧ fle x a ∧
           (rej !! i = Some fone → fle x alpha).
Proof.
  intros Hvalid Hbound Halpha.
  destruct (bh_by_value argsort junk_f junk_b argsort_perm argsort_sorted
              ps alpha Hvalid Hbound Halpha) as (q & rej & Hrun & _ & Hval).
  exists q, rej. split; [done|]. intros i x Hx Hnan.
  destruct (Hval i x Hx Hnan) as (c & b & Hc & Hq & Hrej & Hb).
  pose proof (unit_interval_non_nan ps Hvalid) as Hunit.
  assert (Z.of_nat (length (non_nan ps)) < 2 ^ 63)%Z as Hbound'.
  { pose proof (length_non_nan_le ps). lia. }
  assert (unit_interval x) as [Hx0 Hx1].
  { destruct (Forall_lookup_1 _ _ _ _ Hvalid Hx) as [?|?]; [congruence|done]. }
  pose proof (tail_min_ge _ _ _ Hunit Hbound' Hc) as Hxc.
  exists (clamp c). split_and!; [done| |].
  - unfold clamp. by destruct (fltb fone c).
  - rewrite Hrej. intros [= Hone%of_bool_fone].
    apply (tail_passes_le_alpha (non_nan ps)); [done..|]. by apply Hb.
Qed.

(** X11. Bonferroni is conservative as well: at every non-NaN index the
    q-value is at least the p-value, and a rejected entry has a p-value
    strictly below alpha. *)
Theorem bonferroni_never_below_the_pvalue ps alpha :
  valid_pvalues ps → (Z.of_nat (length ps) < 2 ^ 63)%Z →
  ∃ q rej,
    multiple_testing_correction ps alpha "bonferroni" = Ok (q, rej) ∧
    ∀ i x, ps !! i = Some x → fisnan x = false →
      ∃ a, q !! i = Some a ∧ fle x a ∧
           (rej !! i = Some fone → fltb x alpha = true).
Proof.
  intros Hvalid Hbound.
  destruct (bonferroni_entries argsort junk_f junk_b ps alpha)
    as (q & rej & Hrun & Hval).
  exists q, rej. split; [done|]. intros i x Hx Hnan.
  specialize (Hval i x Hx). rewrite Hnan in Hval. destruct Hval as [Hq Hrej].
  assert (unit_interval x) as [Hx0 Hx1].
  { destruct (Forall_lookup_1 _ _ _ _ Hvalid Hx) as [?|?]; [congruence|done]. }
  assert (fle x (fmul x (of_nat (length (filter (λ x, fisnan x = false) ps)))))
    as Hle.
  { apply fmul_nat_ge; [done| |].
    - assert (x ∈ filter (λ x, fisnan x = false) ps) as Hin.
      { apply list_elem_of_filter. split; [done|].
        by eapply list_elem_of_lookup_2. }
      destruct (filter _ ps); [by apply elem_of_nil in Hin|simpl; lia].
    - pose proof (length_filter (λ x, fisnan x = false) ps). lia. }
  eexists. split_and!; [done..|].
  rewrite Hrej. intros [= Hone%of_bool_fone]. by eapply fle_lt_trans.
Qed.

(** X12. A larger significance level never takes a rejection back: for
    [0 <= alpha <= alpha'], whatever either method rejects at [alpha] it
    rejects at [alpha']. *)
Theorem rejections_grow_with_alpha ps alpha alpha' method :
  method = "bonferroni"%string ∨ method = "benjamini-hochberg"%string →
  valid_pvalues ps → (Z.of_nat (length ps) < 2 ^ 63)%Z →
  fle fzero alpha → fle alpha alpha' →
  ∃ q rej q' rej',
    multiple_testing_correction ps alpha method = Ok (q, rej) ∧
    multiple_testing_correction ps alpha' method = Ok (q', rej') ∧
    ∀ i, rej !! i = Some fone → rej' !! i = Some fone.
Proof.
  intros Hmethod Hvalid Hbound Halpha Haa.
  assert (∀ x, fisnan x = true → Some x = Some fone → False) as Hnotone.
  { intros x Hnan [= ->]. rewrite fone_notnan in Hnan. done. }
  destruct Hmethod as [->| ->].
  - destruct (bonferroni_entries argsort junk_f junk_b ps alpha)
      as (q & rej & Hrun & Hval).
    destruct (bonferroni_entries argsort junk_f junk_b ps alpha')
      as (q' & rej' & Hrun' & Hval').
    destruct (multiple_testing_correction_aligned argsort junk_f junk_b
                argsort_perm ps alpha "bonferroni")
      as (q0 & rej0 & Hrun0 & _ & Hlrej & _); [by left|].
    rewrite Hrun in Hrun0. simplify_eq.
    exists q0, rej0, q', rej'. split_and!; [done..|]. intros i Hone.
    destruct (lookup_lt_is_Some_2 ps i) as [x Hx].
    { rewrite <-Hlrej. by eapply lookup_lt_Some. }
    specialize (Hval i x Hx). specialize (Hval' i x Hx).
    destruct (fisnan x) eqn:Hnan.
    + destruct Hval as [_ Hrej]. rewrite Hrej in Hone.
      by destruct (Hnotone x Hnan).
    + destruct Hval as [_ Hrej], Hval' as [_ Hrej'].
      rewrite Hrej in Hone. injection Hone as Hone%of_bool_fone.
      rewrite Hrej'. by rewrite (flt_le_trans _ _ _ Hone Haa).
  - assert (fle fzero alpha') as Halpha' by (by eapply fle_trans).
    destruct (bh_by_value argsort junk_f junk_b argsort_perm argsort_sorted
                ps alpha Hvalid Hbound Halpha)
      as (q & rej & Hrun & Hnanv & Hval).
    destruct (bh_by_value argsort junk_f junk_b argsort_perm argsort_sorted
                ps alpha' Hvalid Hbound Halpha')
      as (q' & rej' & Hrun' & _ & Hval').
    destruct (multiple_testing_correction_aligned argsort junk_f junk_b
                argsort_perm ps alpha "benjamini-hochberg")
      as (q0 & rej0 & Hrun0 & _ & Hlrej & _); [by right|].
    rewrite Hrun in Hrun0. simplify_eq.
    exists q0, rej0, q', rej'. split_and!; [done..|]. intros i Hone.
    destruct (lookup_lt_is_Some_2 ps i) as [x Hx].
    { rewrite <-Hlrej. by eapply lookup_lt_Some. }
    destruct (fisnan x) eqn:Hnan.
    + destruct (Hnanv i x Hx Hnan) as [_ Hrej]. rewrite Hrej in Hone.
      by destruct (Hnotone x Hnan).
    + destruct (Hval i x Hx Hnan) as (c & b & _ & _ & Hrej & Hb).
      destruct (Hval' i x Hx Hnan) as (c' & b' & _ & _ & Hrej' & Hb').
      rewrite Hrej in Hone. injection Hone as Hone%of_bool_fone.
      rewrite Hrej'. assert (b' = true) as ->; [|done].
      apply Hb'. pose proof (unit_interval_non_nan ps Hvalid) as Hunit.
      assert (Z.of_nat (length (non_nan ps)) < 2 ^ 63)%Z as Hbound'.
      { pose proof (length_non_nan_le ps). lia. }
      apply (tail_passes_alpha_mono (non_nan ps) alpha); [done..|].
      by apply Hb.
Qed.
End Conservative.

(** ** The further properties at concrete inputs *)

Lemma calc_pvalues_no_columns_iff_empty_witness :
  calc_pvalues hypergeom_sf ["A"; "B"]%string [] None = Ok NoColumns ∧
  (NoColumns (P:=xQ) = NoColumns ↔ @nil (string * list string) = []).
Proof.
  assert (calc_pvalues hypergeom_sf ["A"; "B"]%string [] None = Ok NoColumns)
    as Hcalc by reflexivity.
  split; [exact Hcalc|].
  exact (calc_pvalues_no_columns_iff_empty hypergeom_sf _ _ _ _ Hcalc).
Defined.

Lemma overlap_count_bounds_witness :
  calc_pvalues (λ x M n N, (x, M, n, N)) ["A"; "B"; "A"]%string
    [("c", ["A"; "X"])]%string None
    = Ok (Columns [(0, 20000, 2, 3)%Z] [1%Z] [2%Z] [{["A"%string]}]) ∧
  (0 ≤ 1)%Z ∧ (1 ≤ 2)%Z ∧ (1 ≤ 3)%Z.
Proof.
  assert (calc_pvalues (λ x M n N, (x, M, n, N)) ["A"; "B"; "A"]%string
            [("c", ["A"; "X"])]%string None
          = Ok (Columns [(0, 20000, 2, 3)%Z] [1%Z] [2%Z] [{["A"%string]}]))
    as Hcalc by (vm_compute; reflexivity).
  split; [exact Hcalc|].
  destruct (overlap_count_bounds _ _ _ _ _ _ _ _ Hcalc 0 1%Z 2%Z
              {["A"%string]} eq_refl eq_refl eq_refl)
    as (_ & H0 & Hm & Hk & _).
  by split_and!.
Defined.

Lemma overlap_count_is_distinct_shared_witness :
  NoDup (keys [("c", ["A"; "X"])]%string) ∧
  [1%Z] !! 0 = Some (Z.of_nat (length (shared ["A"; "B"; "A"] ["A"; "X"]))).
Proof.
  assert (NoDup (keys [("c", ["A"; "X"])]%string)) as Hnd
    by apply NoDup_singleton.
  assert (calc_pvalues (λ x M n N, (x, M, n, N)) ["A"; "B"; "A"]%string
            [("c", ["A"; "X"])]%string None
          = Ok (Columns [(0, 20000, 2, 3)%Z] [1%Z] [2%Z] [{["A"%string]}]))
    as Hcalc by (vm_compute; reflexivity).
  split; [exact Hnd|].
  refine (proj1 (overlap_count_is_distinct_shared _ _ _ _ _ _ _ _ Hnd Hcalc
                   0 "c"%string ["A"; "X"]%string _ _)).
  - vm_compute. reflexivity.
  - apply list_elem_of_singleton. reflexivity.
Defined.

Lemma calc_pvalues_ignores_listing_order_witness :
  ["B"; "A"]%string ≡ₚ ["A"; "B"]%string ∧
  same_members [("c", ["A"; "X"])]%string [("c", ["X"; "A"])]%string ∧
  calc_pvalues hypergeom_sf ["B"; "A"]%string [("c", ["X"; "A"])]%string None =
  calc_pvalues hypergeom_sf ["A"; "B"]%string [("c", ["A"; "X"])]%string None.
Proof.
  assert (["B"; "A"]%string ≡ₚ ["A"; "B"]%string) as Hq
    by apply Permutation_swap.
  assert (same_members [("c", ["A"; "X"])]%string [("c", ["X"; "A"])]%string)
    as Hd.
  { constructor; [|constructor]. split; [done|apply Permutation_swap]. }
  split; [exact Hq|]. split; [exact Hd|].
  exact (calc_pvalues_ignores_listing_order hypergeom_sf _ _ _ _ None Hq Hd).
Defined.

Lemma duplicates_leave_counts_and_hits_witness :
  ∃ pvals',
    calc_pvalues (λ x M n N, (x, M, n, N)) (remove_dups ["A"; "B"; "A"]%string)
      [("c", ["A"; "X"])]%string None
      = Ok (Columns pvals' [1%Z] [2%Z] [{["A"%string]}]) ∧
    length pvals' = 1.
Proof.
  assert (calc_pvalues (λ x M n N, (x, M, n, N)) ["A"; "B"; "A"]%string
            [("c", ["A"; "X"])]%string None
          = Ok (Columns [(0, 20000, 2, 3)%Z] [1%Z] [2%Z] [{["A"%string]}]))
    as Hcalc by (vm_compute; reflexivity).
  exact (duplicates_leave_counts_and_hits _ _ _ _ _ _ _ _ Hcalc).
Defined.

Lemma uninitialised_memory_never_leaks_witness :
  argsort_permutes (F:=binary64) insertion_argsort ∧
  multiple_testing_correction (F:=binary64) insertion_argsort 0%float false
    [0.25; nan; 0.5]%float 0.125%float "benjamini-hochberg" =
  multiple_testing_correction (F:=binary64) insertion_argsort 7%float true
    [0.25; nan; 0.5]%float 0.125%float "benjamini-hochberg".
Proof.
  split; [apply insertion_argsort_permutes|].
  apply (uninitialised_memory_never_leaks (F:=binary64) insertion_argsort
           insertion_argsort_permutes).
Defined.

Lemma qvalues_do_not_depend_on_alpha_witness :
  argsort_permutes (F:=binary64) insertion_argsort ∧
  multiple_testing_correction (F:=binary64) insertion_argsort 0%float false
    [0.25; nan]%float 0.125%float "bonferroni"
    = Ok ([0.25; nan]%float, [0; nan]%float) ∧
  multiple_testing_correction (F:=binary64) insertion_argsort 0%float false
    [0.25; nan]%float 0.5%float "bonferroni"
    = Ok ([0.25; nan]%float, [1; nan]%float) ∧
  [0.25; nan]%float = [0.25; nan]%float.
Proof.
  assert (multiple_testing_correction (F:=binary64) insertion_argsort 0%float
            false [0.25; nan]%float 0.125%float "bonferroni"
          = Ok ([0.25; nan]%float, [0; nan]%float)) as Hrun
    by (vm_compute; reflexivity).
  assert (multiple_testing_correction (F:=binary64) insertion_argsort 0%float
            false [0.25; nan]%float 0.5%float "bonferroni"
          = Ok ([0.25; nan]%float, [1; nan]%float)) as Hrun'
    by (vm_compute; reflexivity).
  split; [apply insertion_argsort_permutes|].
  split; [exact Hrun|]. split; [exact Hrun'|].
  exact (qvalues_do_not_depend_on_alpha (F:=binary64) insertion_argsort
           insertion_argsort_permutes 0%float false _ _ _ _ _ _ _ _
           Hrun Hrun').
Defined.

Lemma bonferroni_order_invariant_witness :
  [2; 1; 0] ≡ₚ seq 0 3 ∧
  ∃ q rej q' rej',
    multiple_testing_correction (F:=binary64) insertion_argsort 0%float false
      [0.25; nan; 0.5]%float 0.125%float "bonferroni" = Ok (q, rej) ∧
    multiple_testing_correction (F:=binary64) insertion_argsort 0%float false
      [0.5; nan; 0.25]%float 0.125%float "bonferroni" = Ok (q', rej') ∧
    ∀ j i, [2; 1; 0] !! j = Some i → q' !! j = q !! i ∧ rej' !! j = rej !! i.
Proof.
  assert ([2; 1; 0] ≡ₚ seq 0 3) as Hsigma.
  { symmetry. apply (Permutation_rev [0; 1; 2]). }
  split; [exact Hsigma|].
  exact (bonferroni_order_invariant (F:=binary64) insertion_argsort 0%float
           false [0.25; nan; 0.5]%float [2; 1; 0] [0.5; nan; 0.25]%float
           0.125%float Hsigma eq_refl).
Defined.

Lemma bh_monotone_in_the_pvalue_witness :
  valid_pvalues (F:=exactQ) scenario_pvalues ∧
  fle (F:=exactQ) fzero scenario_alpha ∧
  ∃ q rej,
    multiple_testing_correction (F:=exactQ) insertion_argsort XNaN false
      scenario_pvalues scenario_alpha "benjamini-hochberg" = Ok (q, rej).
Proof.
  split; [apply scenario_valid|]. split; [reflexivity|].
  destruct (bh_monotone_in_the_pvalue (F:=exactQ) insertion_argsort XNaN false
              insertion_argsort_permutes insertion_argsort_sorts
              scenario_pvalues scenario_alpha scenario_valid eq_refl eq_refl)
    as (q & rej & Hrun & _).
  by exists q, rej.
Defined.

Lemma bh_never_below_the_pvalue_witness :
  valid_pvalues (F:=exactQ) scenario_pvalues ∧
  fle (F:=exactQ) fzero scenario_alpha ∧
  ∃ q rej,
    multiple_testing_correction (F:=exactQ) insertion_argsort XNaN false
      scenario_pvalues scenario_alpha "benjamini-hochberg" = Ok (q, rej) ∧
    ∃ a, q !! 2 = Some a ∧ xQ_leb (XFin (3 # 100)) a = true.
Proof.
  split; [apply scenario_valid|]. split; [reflexivity|].
  destruct (bh_never_below_the_pvalue (F:=exactQ) insertion_argsort XNaN false
              insertion_argsort_permutes insertion_argsort_sorts
              scenario_pvalues scenario_alpha scenario_valid eq_refl eq_refl)
    as (q & rej & Hrun & Hval).
  exists q, rej. split; [done|].
  destruct (Hval 2 (XFin (3 # 100)) eq_refl eq_refl) as (a & Ha & Hle & _).
  by exists a.
Defined.

Lemma bonferroni_never_below_the_pvalue_witness :
  valid_pvalues (F:=exactQ) scenario_pvalues ∧
  ∃ q rej,
    multiple_testing_correction (F:=exactQ) insertion_argsort XNaN false
      scenario_pvalues scenario_alpha "bonferroni" = Ok (q, rej) ∧
    ∃ a, q !! 2 = Some a ∧ xQ_leb (XFin (3 # 100)) a = true.
Proof.
  split; [apply scenario_valid|].
  destruct (bonferroni_never_below_the_pvalue (F:=exactQ) insertion_argsort
              XNaN false scenario_pvalues scenario_alpha scenario_valid
              eq_refl)
    as (q & rej & Hrun & Hval).
  exists q, rej. split; [done|].
  destruct (Hval 2 (XFin (3 # 100)) eq_refl eq_refl) as (a & Ha & Hle & _).
  by exists a.
Defined.

Lemma rejections_grow_with_alpha_witness :
  valid_pvalues (F:=exactQ) scenario_pvalues ∧
  fle (F:=exactQ) scenario_alpha (XFin (1 # 10)) ∧
  ∃ q rej q' rej',
    multiple_testing_correction (F:=exactQ) insertion_argsort XNaN false
      scenario_pvalues scenario_alpha "benjamini-hochberg" = Ok (q, rej) ∧
    multiple_testing_correction (F:=exactQ) insertion_argsort XNaN false
      scenario_pvalues (XFin (1 # 10)) "benjamini-hochberg" = Ok (q', rej') ∧
    ∀ i, rej !! i = Some (XFin 1) → rej' !! i = Some (XFin 1).
Proof.
  split; [apply scenario_valid|]. split; [reflexivity|].
  exact (rejections_grow_with_alpha (F:=exactQ) insertion_argsort XNaN false
           insertion_argsort_permutes insertion_argsort_sorts
           scenario_pvalues scenario_alpha (XFin (1 # 10))
           "benjamini-hochberg" (or_intror eq_refl) scenario_valid
           eq_refl eq_refl eq_refl).
Defined.
